(** * Sweepstake: a shallow embedding of [sweepstake.py]

    The program keeps every list in a Python list object and reaches it through
    references: [self.participants] and [self.teams] alias the caller's lists,
    [take_segment] builds new lists by slicing, [assign_from_segments] works on
    a copy of the participants and appends to the lists held by the
    [assignments] dictionary.  The embedding therefore has a store of list
    objects, a small state-and-exception monad over it, and the methods of the
    class written in that monad, statement by statement. *)

From stdpp Require Import base list strings.
From stdpp Require Import pretty.

Open Scope string_scope.
Open Scope list_scope.

(** ** The store *)

(** A reference to a list object: its index in the store. *)
Abbreviation loc := nat (only parsing).

(** The machine state: the list objects allocated so far, and the state of the
    [random] module, an infinite tape of raw draws with the number of draws
    already taken from it. *)
Record State := mkState {
  heap : list (list string);
  tape : nat -> nat;
  draws : nat
}.

(** The exceptions the program can raise.  [BadRef] stands for the use of a
    reference that names no object; Python has no such thing, and no run of
    the program reaches it. *)
Inductive exn := IndexError | KeyError | ValueError | BadRef.

(** The outcome of a computation: a value and a new state, an exception, or a
    [while] loop that used up its fuel. *)
Inductive res (A : Type) :=
  | Ok (a : A) (st : State)
  | Raise (e : exn)
  | OutOfFuel.
Arguments Ok {A} a st.
Arguments Raise {A} e.
Arguments OutOfFuel {A}.

Definition M (A : Type) : Type := State -> res A.

#[global] Instance M_ret : MRet M := fun A a st => Ok a st.

#[global] Instance M_bind : MBind M := fun A B k m st =>
  match m st with
  | Ok a st' => k a st'
  | Raise e => Raise e
  | OutOfFuel => OutOfFuel
  end.

Definition raise {A} (e : exn) : M A := fun _ => Raise e.

Definition out_of_fuel {A} : M A := fun _ => OutOfFuel.

Definition load (l : loc) : M (list string) := fun st =>
  match heap st !! l with
  | Some v => Ok v st
  | None => Raise BadRef
  end.

Definition store (l : loc) (v : list string) : M unit := fun st =>
  match heap st !! l with
  | Some _ => Ok tt (mkState (<[l:=v]> (heap st)) (tape st) (draws st))
  | None => Raise BadRef
  end.

Definition alloc (v : list string) : M loc := fun st =>
  Ok (length (heap st)) (mkState (heap st ++ [v]) (tape st) (draws st)).

(** ** Python's list operations *)

(** [len(l)] *)
Definition list_len (l : loc) : M nat :=
  v ← load l; mret (length v).

(** [l[:k]] for [k >= 0]: a new list. *)
Definition list_slice_to (l : loc) (k : nat) : M loc :=
  v ← load l; alloc (take k v).

(** [l[k:]] for [k >= 0]: a new list. *)
Definition list_slice_from (l : loc) (k : nat) : M loc :=
  v ← load l; alloc (drop k v).

(** [l.copy()] *)
Definition list_copy (l : loc) : M loc :=
  v ← load l; alloc v.

(** [l.append(x)], in place. *)
Definition list_append (l : loc) (x : string) : M unit :=
  v ← load l; store l (v ++ [x]).

(** The list without the first occurrence of [x]. *)
Fixpoint remove_first (x : string) (v : list string) : list string :=
  match v with
  | [] => []
  | y :: v' => if decide (x = y) then v' else y :: remove_first x v'
  end.

(** [l.remove(x)], in place: [ValueError] when [x] is not in the list. *)
Definition list_remove (l : loc) (x : string) : M unit :=
  v ← load l;
  if decide (x ∈ v) then store l (remove_first x v) else raise ValueError.

(** [random._randbelow(n)]: the next raw draw, reduced below [n].  The tape is
    arbitrary, so every index below [n] is the outcome for some tape. *)
Definition randbelow (n : nat) : M nat := fun st =>
  Ok (tape st (draws st) `mod` n) (mkState (heap st) (tape st) (S (draws st))).

(** [random.choice(l)]: [IndexError] on an empty list, else [l[randbelow(len(l))]]. *)
Definition random_choice (l : loc) : M string :=
  v ← load l;
  if decide (length v = 0) then raise IndexError
  else
    i ← randbelow (length v);
    match v !! i with
    | Some x => mret x
    | None => raise IndexError
    end.

(** [for x in xs: body(x)], over the elements the list has when the loop
    starts.  No loop of the program changes the list it runs over: the
    comprehension only allocates, and [assign_from_segments] appends to the
    lists of the dictionary and removes from its own copy, while the list it
    runs over is a segment. *)
Fixpoint for_each {A} (xs : list A) (body : A -> M unit) : M unit :=
  match xs with
  | [] => mret tt
  | x :: xs' => body x;; for_each xs' body
  end.

(** ** Python's dictionary, keys in insertion order *)

Abbreviation dict := (list (string * loc)) (only parsing).

(** [d[k]] as a lookup. *)
Fixpoint dict_lookup (d : dict) (k : string) : option loc :=
  match d with
  | [] => None
  | (k', l) :: d' => if decide (k = k') then Some l else dict_lookup d' k
  end.

(** [d[k] = l]: an existing key keeps its place and takes the new value, a new
    key goes last. *)
Fixpoint dict_set (d : dict) (k : string) (l : loc) : dict :=
  match d with
  | [] => [(k, l)]
  | (k', l') :: d' =>
      if decide (k = k') then (k', l) :: d' else (k', l') :: dict_set d' k l
  end.

(** [d[k]] in an expression: [KeyError] for a missing key. *)
Definition dict_get (d : dict) (k : string) : M loc :=
  match dict_lookup d k with
  | Some l => mret l
  | None => raise KeyError
  end.

(** ** The class [Sweepstake] *)

Record Sweepstake := mkSweepstake {
  participants : loc;
  teams : loc;
  segmented_teams : list loc;
  assignments : dict
}.

(** [take_segment(self, remaining_teams)] *)
Definition take_segment (self : Sweepstake) (remaining_teams : loc) : M (loc * loc) :=
  np ← list_len (participants self);
  nt ← list_len (teams self);
  let segment_index := np `min` nt in
  a ← list_slice_to remaining_teams segment_index;
  b ← list_slice_from remaining_teams segment_index;
  mret (a, b).

(** The [while] loop of [segment_teams]: one unit of fuel per iteration. *)
Fixpoint segment_loop (fuel : nat) (self : Sweepstake)
    (segmented : list loc) (remaining_teams : loc) : M (list loc) :=
  n ← list_len remaining_teams;
  if decide (0 < n) then
    match fuel with
    | 0 => out_of_fuel
    | S fuel' =>
        '(current_segment, remaining_teams') ← take_segment self remaining_teams;
        segment_loop fuel' self (segmented ++ [current_segment]) remaining_teams'
    end
  else mret segmented.

(** [segment_teams(self)] *)
Definition segment_teams (fuel : nat) (self : Sweepstake) : M (list loc) :=
  segment_loop fuel self [] (teams self).

(** [{participant: [] for participant in names}], continued from [d]. *)
Fixpoint empty_lists (names : list string) (d : dict) : M dict :=
  match names with
  | [] => mret d
  | participant :: names' =>
      l ← alloc [];
      empty_lists names' (dict_set d participant l)
  end.

(** The constructor of the dataclass followed by [__post_init__]: the two
    fields are the references it is given. *)
Definition post_init (fuel : nat) (participants teams : loc) : M Sweepstake :=
  let self := mkSweepstake participants teams [] [] in
  segmented ← segment_teams fuel self;
  names ← load participants;
  d ← empty_lists names [];
  mret (mkSweepstake participants teams segmented d).

(** The body of the loop of [assign_from_segments]; [pool] is the local
    variable [participants]. *)
Definition assign_team (self : Sweepstake) (pool : loc) (team : string) : M unit :=
  participant ← random_choice pool;
  l ← dict_get (assignments self) participant;
  list_append l team;;
  list_remove pool participant.

(** [assign_from_segments(self, segment)] *)
Definition assign_from_segments (self : Sweepstake) (segment : loc) : M unit :=
  pool ← list_copy (participants self);
  seg ← load segment;
  for_each seg (assign_team self pool).

(** [assign_teams(self)] *)
Definition assign_teams (self : Sweepstake) : M unit :=
  for_each (segmented_teams self) (assign_from_segments self).

(** ** Reading a state *)

(** [self.assignments[k]] as a value. *)
Definition assigned (self : Sweepstake) (st : State) (k : string) : option (list string) :=
  l ← dict_lookup (assignments self) k; heap st !! l.

(** The keys of the dictionary, in its order. *)
Definition keys (d : dict) : list string := d.*1.

(** The lists behind a list of references. *)
Definition deref (st : State) (ls : list loc) : option (list (list string)) :=
  mapM (fun l => heap st !! l) ls.

(** The state the [__main__] block starts from: the two files read into two
    lists, nothing drawn yet. *)
Definition init_state (tp : nat -> nat) (ps ts : list string) : State :=
  mkState [ps; ts] tp 0.

(** ** Values the proofs speak about *)

(** The segments the loop of [segment_teams] builds from the remaining teams
    [l] with segment size [k], as values; [None] when [fuel] iterations do not
    end the loop. *)
Fixpoint chunks (fuel k : nat) (l : list string) : option (list (list string)) :=
  match l with
  | [] => Some []
  | _ :: _ =>
      match fuel with
      | 0 => None
      | S fuel' => cs ← chunks fuel' k (drop k l); Some (take k l :: cs)
      end
  end.

(** What a run of [segment_teams] shows to its caller. *)
Inductive outcome :=
  | Returned (segments : list (list string))
  | Failed (e : exn)
  | Unfinished.

Definition observe (r : res (list loc)) : outcome :=
  match r with
  | Ok ls st =>
      match deref st ls with
      | Some cs => Returned cs
      | None => Failed BadRef
      end
  | Raise e => Failed e
  | OutOfFuel => Unfinished
  end.

(** The names of a list, each once, in the order of their first occurrence. *)
Fixpoint first_seen (names : list string) : list string :=
  match names with
  | [] => []
  | p :: names' => p :: filter (fun q => q ≠ p) (first_seen names')
  end.

(** The keys after [d[k] = ...]. *)
Definition add_key (ks : list string) (k : string) : list string :=
  if decide (k ∈ ks) then ks else ks ++ [k].

(** The teams of a segment that went to [k], when [chosen] lists the
    participant drawn for each team of the segment in turn. *)
Fixpoint received (k : string) (chosen seg : list string) : list string :=
  match chosen, seg with
  | p :: chosen', team :: seg' =>
      if decide (p = k) then team :: received k chosen' seg'
      else received k chosen' seg'
  | _, _ => []
  end.

(** How often [x] occurs in [v]. *)
Definition count (x : string) (v : list string) : nat :=
  length (filter (fun y => y = x) v).

(** The invariant of a [Sweepstake] object in a state: the dictionary holds
    pairwise distinct list objects, all of them alive and none of them the
    participants list, the teams list or a segment; both input lists and every
    segment are alive; every participant is a key. *)
Definition wf (self : Sweepstake) (st : State) : Prop :=
  NoDup (assignments self).*2
  /\ Forall (fun l => is_Some (heap st !! l)
                      /\ l ≠ participants self /\ l ≠ teams self
                      /\ l ∉ segmented_teams self) (assignments self).*2
  /\ is_Some (heap st !! teams self)
  /\ Forall (fun l => is_Some (heap st !! l)) (segmented_teams self)
  /\ match heap st !! participants self with
     | Some ps => Forall (fun p => p ∈ keys (assignments self)) ps
     | None => False
     end.

#[global] Instance wf_dec self st : Decision (wf self st).
Proof. unfold wf. destruct (heap st !! participants self); apply _. Defined.

(** A bound on what one segment gives to one participant, over a whole run:
    construction returns, and for every segment of [segmented_teams], in the
    state in which [assign_teams] reaches it, [assign_from_segments] returns
    and has appended to the list of every key [k] at most [bound k] teams, all
    of them teams of that segment. *)
Definition per_segment (bound : string -> nat) (fuel : nat) (lp lt : loc) (st : State) : Prop :=
  exists self st1,
    post_init fuel lp lt st = Ok self st1
    /\ forall before segment after,
         segmented_teams self = before ++ segment :: after ->
         exists st2 st3 seg,
           for_each before (assign_from_segments self) st1 = Ok tt st2
           /\ heap st2 !! segment = Some seg
           /\ assign_from_segments self segment st2 = Ok tt st3
           /\ forall k, k ∈ keys (assignments self) ->
                exists old got,
                  assigned self st2 k = Some old
                  /\ assigned self st3 k = Some (old ++ got)
                  /\ got `sublist_of` seg
                  /\ length got <= bound k.

(** ** Reading the files and showing the result *)

(** The character ["\n"]. *)
Definition newline : Ascii.ascii := Ascii.ascii_of_nat 10.

(** [text.split("\n")]: the pieces between the newlines, empty ones included;
    a text without newline is one piece. *)
Fixpoint split_lines (text : string) : list string :=
  match text with
  | EmptyString => [EmptyString]
  | String c text' =>
      if decide (c = newline) then EmptyString :: split_lines text'
      else
        match split_lines text' with
        | line :: lines => String c line :: lines
        | [] => [String c EmptyString]
        end
  end.

(** [read_file(file_name)].  The file system is not part of the state: [fs]
    gives, for a file name, the text that [file.read()] returns (the file
    exists and decodes).  The list is a new object. *)
Definition read_file (fs : string -> string) (file_name : string) : M loc :=
  alloc (split_lines (fs file_name)).

(** [print(line)]: the lines printed so far, and one more. *)
Definition print (out : list string) (line : string) : list string :=
  out ++ [line].

(** [for team in self.assignments[participant]: print(f"  {team}")] *)
Fixpoint display_teams (teams : list string) (out : list string) : list string :=
  match teams with
  | [] => out
  | team :: teams' => display_teams teams' (print out ("  " +:+ team))
  end.

(** The body of the loop of [display_assignments]: the dictionary is read
    once for the count and once for the teams. *)
Definition display_participant (self : Sweepstake) (out : list string)
    (participant : string) : M (list string) :=
  l ← dict_get (assignments self) participant;
  v ← load l;
  let out := print out (participant +:+ " (" +:+ pretty (length v) +:+ "):") in
  l' ← dict_get (assignments self) participant;
  v' ← load l';
  let out := display_teams v' out in
  mret (print out "").

Fixpoint display_loop (self : Sweepstake) (names : list string)
    (out : list string) : M (list string) :=
  match names with
  | [] => mret out
  | participant :: names' =>
      out' ← display_participant self out participant;
      display_loop self names' out'
  end.

(** [display_assignments(self)]: what it prints, one entry per call of
    [print]. *)
Definition display_assignments (self : Sweepstake) : M (list string) :=
  names ← load (participants self);
  display_loop self names [].

(** The [__main__] block: what it prints. *)
Definition main (fuel : nat) (fs : string -> string) : M (list string) :=
  people ← read_file fs "people.txt";
  world_cup ← read_file fs "world_cup_2022.txt";
  sweepstake ← post_init fuel people world_cup;
  assign_teams sweepstake;;
  display_assignments sweepstake.

(** ["\n".join(lines)] *)
Fixpoint join_lines (lines : list string) : string :=
  match lines with
  | [] => EmptyString
  | line :: lines' =>
      match lines' with
      | [] => line
      | _ :: _ => line +:+ String newline (join_lines lines')
      end
  end.

(** The number of newlines of a text. *)
Fixpoint newlines (text : string) : nat :=
  match text with
  | EmptyString => 0
  | String c text' => (if decide (c = newline) then 1 else 0) + newlines text'
  end.

(** What [display_assignments] prints for a participant whose list is [v]. *)
Definition block (participant : string) (v : list string) : list string :=
  (participant +:+ " (" +:+ pretty (length v) +:+ "):")
    :: (String.append "  " <$> v) ++ [EmptyString].

(** * Running the monad *)

Lemma bind_run {A B} (m : M A) (k : A -> M B) st :
  (m ≫= k) st =
  match m st with
  | Ok a st' => k a st'
  | Raise e => Raise e
  | OutOfFuel => OutOfFuel
  end.
Proof. reflexivity. Qed.

Lemma bind_Ok {A B} (m : M A) (k : A -> M B) st a st' :
  m st = Ok a st' -> (m ≫= k) st = k a st'.
Proof. intros H. by rewrite bind_run, H. Qed.

Lemma load_run l st v : heap st !! l = Some v -> load l st = Ok v st.
Proof. intros H. unfold load. by rewrite H. Qed.

Lemma store_run l v st old :
  heap st !! l = Some old ->
  store l v st = Ok tt (mkState (<[l:=v]> (heap st)) (tape st) (draws st)).
Proof. intros H. unfold store. by rewrite H. Qed.

Lemma list_len_run l st v : heap st !! l = Some v -> list_len l st = Ok (length v) st.
Proof. intros H. unfold list_len. by rewrite (bind_Ok _ _ _ _ _ (load_run _ _ _ H)). Qed.

Lemma lookup_alloc_old (h : list (list string)) ext l v :
  h !! l = Some v -> (h ++ ext) !! l = Some v.
Proof. intros H. rewrite lookup_app_l; [done | by eapply lookup_lt_Some]. Qed.

Lemma lookup_alloc_new (h : list (list string)) v ext :
  (h ++ v :: ext) !! length h = Some v.
Proof. by rewrite list_lookup_middle. Qed.

(** * Segmentation *)

Lemma take_segment_run self lr st ps ts rem :
  heap st !! participants self = Some ps ->
  heap st !! teams self = Some ts ->
  heap st !! lr = Some rem ->
  let k := length ps `min` length ts in
  take_segment self lr st =
  Ok (length (heap st), S (length (heap st)))
     (mkState (heap st ++ [take k rem; drop k rem]) (tape st) (draws st)).
Proof.
  intros Hp Ht Hr k. unfold take_segment.
  rewrite (bind_Ok _ _ _ _ _ (list_len_run _ _ _ Hp)).
  rewrite (bind_Ok _ _ _ _ _ (list_len_run _ _ _ Ht)).
  fold k. unfold list_slice_to, list_slice_from.
  rewrite bind_run, (bind_Ok _ _ _ _ _ (load_run _ _ _ Hr)). unfold alloc at 1.
  rewrite bind_run, bind_run. unfold load at 1. cbn [heap tape draws].
  rewrite (lookup_alloc_old _ _ _ _ Hr). unfold alloc. cbn [heap tape draws].
  unfold mret, M_ret. rewrite length_app, <- (assoc_L (++)). cbn.
  do 2 f_equal. lia.
Qed.

Lemma segment_loop_unfold fuel self segmented lr :
  segment_loop fuel self segmented lr =
  (n ← list_len lr;
   if decide (0 < n) then
     match fuel with
     | 0 => out_of_fuel
     | S fuel' =>
         '(cur, rem) ← take_segment self lr;
         segment_loop fuel' self (segmented ++ [cur]) rem
     end
   else mret segmented).
Proof. by destruct fuel. Qed.

(** The loop computes [chunks]: it returns references to new lists holding
    the chunks, or runs out of fuel exactly when [chunks] does.  It draws
    nothing and writes to no list that exists already. *)
Lemma segment_loop_run fuel : forall self segmented lr st ps ts rem,
  heap st !! participants self = Some ps ->
  heap st !! teams self = Some ts ->
  heap st !! lr = Some rem ->
  match chunks fuel (length ps `min` length ts) rem with
  | Some cs =>
      exists new st',
        segment_loop fuel self segmented lr st = Ok (segmented ++ new) st'
        /\ tape st' = tape st /\ draws st' = draws st
        /\ heap st `prefix_of` heap st'
        /\ Forall2 (fun l c => heap st' !! l = Some c) new cs
        /\ Forall (fun l => length (heap st) <= l) new
        /\ NoDup new
  | None => segment_loop fuel self segmented lr st = OutOfFuel
  end.
Proof.
  induction fuel as [|fuel IH]; intros self segmented lr st ps ts rem Hp Ht Hr;
    rewrite segment_loop_unfold, (bind_Ok _ _ _ _ _ (list_len_run _ _ _ Hr)).
  - destruct rem as [|t rem]; cbn [chunks length].
    + rewrite decide_False by lia. exists [], st.
      rewrite app_nil_r. repeat split; try done; constructor.
    + by rewrite decide_True by lia.
  - destruct rem as [|t rem]; cbn [chunks length].
    + rewrite decide_False by lia. exists [], st.
      rewrite app_nil_r. repeat split; try done; constructor.
    + rewrite decide_True by lia.
      rewrite (bind_Ok _ _ _ _ _ (take_segment_run _ _ _ _ _ _ Hp Ht Hr)).
      set (k := length ps `min` length ts).
      set (st1 := mkState _ _ _).
      specialize (IH self (segmented ++ [length (heap st)]) (S (length (heap st))) st1 ps ts
                    (drop k (t :: rem))).
      fold k in IH.
      assert (H1p : heap st1 !! participants self = Some ps) by by apply lookup_alloc_old.
      assert (H1t : heap st1 !! teams self = Some ts) by by apply lookup_alloc_old.
      assert (H1r : heap st1 !! S (length (heap st)) = Some (drop k (t :: rem))).
      { subst st1. cbn [heap]. rewrite lookup_app_r by lia.
        by replace (S (length (heap st)) - length (heap st)) with 1 by lia. }
      specialize (IH H1p H1t H1r).
      destruct (chunks fuel k (drop k (t :: rem))) as [cs|]; cbn; [|done].
      destruct IH as (new & st' & Hrun & Htape & Hdraws & Hpre & Hnew & Hge & Hnd).
      exists (length (heap st) :: new), st'.
      assert (Hlen1 : length (heap st1) = S (S (length (heap st)))).
      { subst st1. cbn [heap]. rewrite length_app. cbn. lia. }
      split; [etrans; [exact Hrun|]; by rewrite <- (assoc_L (++))|].
      repeat split; try done.
      * etrans; [|exact Hpre]. by eexists.
      * constructor; [|done].
        eapply prefix_lookup_Some; [|exact Hpre]. apply lookup_alloc_new.
      * constructor; [lia|]. eapply Forall_impl; [exact Hge|]. intros l Hl. cbn beta in *. lia.
      * constructor; [|done]. intros Hin.
        rewrite Forall_forall in Hge. specialize (Hge _ Hin). lia.
Qed.

(** With segment size 0 and a team left, no amount of fuel ends the loop. *)
Lemma chunks_zero fuel t l : chunks fuel 0 (t :: l) = None.
Proof. induction fuel as [|fuel IH]; [done|]. cbn. cbn in IH. by rewrite IH. Qed.

(** More fuel does not change a result. *)
Lemma chunks_more_fuel fuel : forall fuel' k l cs,
  chunks fuel k l = Some cs -> fuel <= fuel' -> chunks fuel' k l = Some cs.
Proof.
  induction fuel as [|fuel IH]; intros fuel' k l cs H Hle.
  - destruct l; [|done]. by destruct fuel'.
  - destruct l as [|t l]; [by destruct fuel'|].
    destruct fuel' as [|fuel']; [lia|].
    cbn [chunks] in *.
    destruct (chunks fuel k (drop k (t :: l))) as [cs'|] eqn:E; [|done].
    by rewrite (IH fuel' _ _ _ E) by lia.
Qed.

Lemma chunks_deterministic f1 f2 k l cs1 cs2 :
  chunks f1 k l = Some cs1 -> chunks f2 k l = Some cs2 -> cs1 = cs2.
Proof.
  intros H1 H2.
  apply (chunks_more_fuel _ (f1 `max` f2)) in H1; [|lia].
  apply (chunks_more_fuel _ (f1 `max` f2)) in H2; [|lia].
  congruence.
Qed.

(** With a positive segment size the loop ends within [length l] iterations,
    and its segments tile [l]: all have [k] teams but the last, which has
    between 1 and [k]. *)
Lemma chunks_tiles fuel : forall k l,
  (l ≠ [] -> 1 <= k) -> length l <= fuel ->
  exists cs,
    chunks fuel k l = Some cs
    /\ concat cs = l
    /\ (forall i c, cs !! i = Some c -> S i < length cs -> length c = k)
    /\ (forall c, last cs = Some c -> 1 <= length c <= k).
Proof.
  induction fuel as [|fuel IH]; intros k l Hk Hlen.
  - destruct l; [|cbn in Hlen; lia]. exists []. by repeat split.
  - destruct l as [|t l]; [exists []; by repeat split|].
    specialize (Hk ltac:(done)).
    destruct (IH k (drop k (t :: l))) as (cs & Hcs & Hcat & Hfull & Hlast); [done|..].
    { rewrite length_drop. cbn in *. lia. }
    exists (take k (t :: l) :: cs). cbn [chunks]. rewrite Hcs. cbn [mbind option_bind].
    split; [done|]. split; [cbn; by rewrite Hcat, take_drop|].
    split.
    + intros [|i] c Hi Hlt; cbn in *.
      * injection Hi as <-.
        destruct cs as [|c' cs]; [cbn in Hlt; lia|].
        apply length_take_le.
        destruct (decide (k <= length (t :: l))) as [|Hn]; [done|].
        rewrite drop_ge in Hcs by lia. destruct fuel; cbn in Hcs; congruence.
      * apply (Hfull i); [done|lia].
    + intros c Hc. destruct cs as [|c' cs].
      * cbn in Hc. injection Hc as <-. rewrite length_take. cbn. lia.
      * apply Hlast. by rewrite last_cons_cons in Hc.
Qed.

(** No segment is longer than the segment size. *)
Lemma chunks_length_le fuel : forall k l cs,
  chunks fuel k l = Some cs -> Forall (fun c => length c <= k) cs.
Proof.
  induction fuel as [|fuel IH]; intros k [|t l] cs H; cbn in H; simplify_eq; try constructor.
  destruct (chunks fuel k (drop k (t :: l))) as [cs'|] eqn:E; cbn in H; simplify_eq.
  constructor; [|by eapply IH]. rewrite length_take. lia.
Qed.

(** When the segment size divides the number of teams, every segment is full. *)
Lemma chunks_multiple fuel : forall k l cs m,
  1 <= k -> chunks fuel k l = Some cs -> length l = m * k ->
  Forall (fun c => length c = k) cs /\ length cs = m.
Proof.
  induction fuel as [|fuel IH]; intros k [|t l] cs m Hk H Hlen; cbn in H; simplify_eq.
  - split; [constructor|]. cbn in Hlen. destruct m; [done|]. cbn in Hlen. lia.
  - split; [constructor|]. cbn in Hlen. destruct m; [done|]. cbn in Hlen. lia.
  - destruct (chunks fuel k (drop k (t :: l))) as [cs'|] eqn:E; cbn in H; simplify_eq.
    destruct m as [|m]; [cbn in Hlen; lia|].
    destruct (IH k (drop k (t :: l)) cs' m Hk E) as [Hall Hm].
    { rewrite length_drop. cbn [length] in *. lia. }
    split; [|cbn; lia]. constructor; [|done].
    rewrite length_take. cbn [length] in *. lia.
Qed.

(** What the caller of [segment_teams] sees is what [chunks] computes. *)
Lemma observe_segment_teams fuel self st ps ts :
  heap st !! participants self = Some ps ->
  heap st !! teams self = Some ts ->
  observe (segment_teams fuel self st) =
  match chunks fuel (length ps `min` length ts) ts with
  | Some cs => Returned cs
  | None => Unfinished
  end.
Proof.
  intros Hp Ht. unfold segment_teams.
  pose proof (segment_loop_run fuel self [] (teams self) st ps ts ts Hp Ht Ht) as H.
  destruct (chunks fuel (length ps `min` length ts) ts) as [cs|]; [|by rewrite H].
  destruct H as (new & st' & -> & _ & _ & _ & Hnew & _). cbn.
  unfold deref. by rewrite (mapM_Some_2 _ _ _ Hnew).
Qed.

(** * The dictionary *)

Lemma keys_dict_set d k l : keys (dict_set d k l) = add_key (keys d) k.
Proof.
  unfold add_key, keys. induction d as [|[k' l'] d IH]; cbn.
  - destruct (decide (k ∈ [])) as [H%elem_of_nil|]; done.
  - destruct (decide (k = k')) as [->|Hne]; cbn.
    + by rewrite decide_True by left.
    + rewrite IH. destruct (decide (k ∈ d.*1)) as [Hin|Hin].
      * by rewrite decide_True by (by right).
      * by rewrite decide_False by (intros [?|?]%elem_of_cons; done).
Qed.

Lemma values_dict_set d k l l' :
  l' ∈ (dict_set d k l).*2 -> l' = l \/ l' ∈ d.*2.
Proof.
  induction d as [|[k' l0] d IH]; cbn.
  - rewrite list_elem_of_singleton. by left.
  - destruct (decide (k = k')); cbn; rewrite !elem_of_cons; intuition.
Qed.

Lemma NoDup_values_dict_set d k l :
  NoDup d.*2 -> l ∉ d.*2 -> NoDup (dict_set d k l).*2.
Proof.
  induction d as [|[k' l0] d IH]; cbn; intros Hnd Hl.
  - apply NoDup_singleton.
  - apply NoDup_cons in Hnd as [Hl0 Hnd]. apply not_elem_of_cons in Hl as [Hne Hl].
    destruct (decide (k = k')); cbn; apply NoDup_cons; split; auto.
    intros Hin. apply values_dict_set in Hin as [->|Hin]; done.
Qed.

Lemma dict_lookup_Some d k l : dict_lookup d k = Some l -> (k, l) ∈ d.
Proof.
  induction d as [|[k' l'] d IH]; cbn; [done|].
  destruct (decide (k = k')) as [->|]; intros H.
  - injection H as ->. by left.
  - right. by apply IH.
Qed.

Lemma dict_lookup_value d k l : dict_lookup d k = Some l -> l ∈ d.*2.
Proof.
  intros H%dict_lookup_Some. apply list_elem_of_fmap. by exists (k, l).
Qed.

Lemma dict_lookup_key d k : k ∈ keys d -> is_Some (dict_lookup d k).
Proof.
  unfold keys. induction d as [|[k' l'] d IH]; cbn.
  - by rewrite elem_of_nil.
  - rewrite elem_of_cons. destruct (decide (k = k')); [by eexists|].
    intros [?|?]; [done|by apply IH].
Qed.

Lemma dict_lookup_is_key d k l : dict_lookup d k = Some l -> k ∈ keys d.
Proof.
  intros H%dict_lookup_Some. apply list_elem_of_fmap. by exists (k, l).
Qed.

(** Two keys never share a list object when the objects are pairwise distinct. *)
Lemma dict_lookup_inj d k1 k2 l :
  NoDup d.*2 -> dict_lookup d k1 = Some l -> dict_lookup d k2 = Some l -> k1 = k2.
Proof.
  induction d as [|[k' l'] d IH]; cbn; [done|].
  intros [Hl' Hnd]%NoDup_cons.
  destruct (decide (k1 = k')) as [->|], (decide (k2 = k')) as [->|]; try done.
  - intros [= ->] H%dict_lookup_value. done.
  - intros H%dict_lookup_value [= ->]. done.
  - by apply IH.
Qed.

Lemma NoDup_add_key ks k : NoDup ks -> NoDup (add_key ks k).
Proof.
  intros H. unfold add_key. destruct (decide (k ∈ ks)); [done|].
  apply NoDup_app. split_and!; [done| |apply NoDup_singleton].
  intros x Hx ->%list_elem_of_singleton. done.
Qed.

(** Keys in insertion order are the names in first-seen order. *)
Lemma foldl_add_key names : forall acc,
  foldl add_key acc names = acc ++ filter (fun q => q ∉ acc) (first_seen names).
Proof.
  induction names as [|p names IH]; intros acc; cbn [foldl first_seen].
  - by rewrite filter_nil, app_nil_r.
  - rewrite IH. unfold add_key. destruct (decide (p ∈ acc)) as [Hin|Hin].
    + rewrite filter_cons_False by naive_solver.
      rewrite list_filter_filter_l; [done|]. intros x Hx ->. done.
    + rewrite filter_cons_True by done. rewrite <- (assoc_L (++)). cbn.
      do 2 f_equal. rewrite list_filter_filter. apply list_filter_iff.
      intros x. rewrite not_elem_of_app, list_elem_of_singleton. naive_solver.
Qed.

Lemma filter_all (P : string -> Prop) `{!forall x, Decision (P x)} (l : list string) :
  (forall x, x ∈ l -> P x) -> filter P l = l.
Proof.
  induction l as [|x l IH]; intros Hall; [done|].
  rewrite filter_cons_True by (apply Hall; left). f_equal. apply IH.
  intros y Hy. apply Hall. by right.
Qed.

Lemma foldl_add_key_nil names : foldl add_key [] names = first_seen names.
Proof.
  rewrite foldl_add_key. cbn. apply filter_all. intros x _. apply not_elem_of_nil.
Qed.

Lemma first_seen_elem names p : p ∈ first_seen names <-> p ∈ names.
Proof.
  induction names as [|q names IH]; cbn; [done|].
  rewrite !elem_of_cons, list_elem_of_filter, IH.
  destruct (decide (p = q)); tauto.
Qed.

Lemma first_seen_NoDup names : NoDup (first_seen names).
Proof.
  induction names as [|q names IH]; cbn; [constructor|].
  apply NoDup_cons. split; [|by apply NoDup_filter].
  rewrite list_elem_of_filter. intros [? _]. done.
Qed.

(** * The invariant *)

Lemma wf_nodup self st : wf self st -> NoDup (assignments self).*2.
Proof. by intros (? & _). Qed.

Lemma wf_alive self st :
  wf self st -> forall l, l ∈ (assignments self).*2 -> is_Some (heap st !! l).
Proof.
  intros (_ & H & _) l Hl. rewrite Forall_forall in H. by destruct (H l Hl).
Qed.

Lemma wf_apart self st :
  wf self st -> forall l, l ∈ (assignments self).*2 ->
  l ≠ participants self /\ l ≠ teams self /\ l ∉ segmented_teams self.
Proof.
  intros (_ & H & _) l Hl. rewrite Forall_forall in H. by destruct (H l Hl).
Qed.

Lemma wf_inputs self st :
  wf self st -> is_Some (heap st !! participants self) /\ is_Some (heap st !! teams self).
Proof.
  intros (_ & _ & Ht & _ & Hp). split; [|done].
  destruct (heap st !! participants self); [by eexists|done].
Qed.

Lemma wf_segments self st :
  wf self st -> Forall (fun l => is_Some (heap st !! l)) (segmented_teams self).
Proof. by intros (_ & _ & _ & ? & _). Qed.

Lemma wf_keys self st :
  wf self st -> forall ps p,
  heap st !! participants self = Some ps -> p ∈ ps -> p ∈ keys (assignments self).
Proof.
  intros (_ & _ & _ & _ & H) ps p Hps Hp. rewrite Hps in H.
  rewrite Forall_forall in H. by apply H.
Qed.

Lemma wf_intro self st ps :
  NoDup (assignments self).*2 ->
  (forall l, l ∈ (assignments self).*2 ->
     is_Some (heap st !! l) /\ l ≠ participants self /\ l ≠ teams self
     /\ l ∉ segmented_teams self) ->
  heap st !! participants self = Some ps ->
  is_Some (heap st !! teams self) ->
  Forall (fun l => is_Some (heap st !! l)) (segmented_teams self) ->
  (forall p, p ∈ ps -> p ∈ keys (assignments self)) ->
  wf self st.
Proof.
  intros Hnd Hd Hp Ht Hs Hk. unfold wf. rewrite Hp.
  split_and!; try done; by apply Forall_forall.
Qed.

(** * Construction *)

(** The comprehension gives every name a new empty list; the keys come in
    insertion order, and the lists of the dictionary stay pairwise distinct. *)
Lemma empty_lists_run base names : forall d st,
  base <= length (heap st) ->
  NoDup d.*2 ->
  (forall l, l ∈ d.*2 -> base <= l /\ heap st !! l = Some []) ->
  exists d' st',
    empty_lists names d st = Ok d' st'
    /\ keys d' = foldl add_key (keys d) names
    /\ tape st' = tape st /\ draws st' = draws st
    /\ heap st `prefix_of` heap st'
    /\ NoDup d'.*2
    /\ (forall l, l ∈ d'.*2 -> base <= l /\ heap st' !! l = Some []).
Proof.
  induction names as [|p names IH]; intros d st Hbase Hnd Hd; cbn [empty_lists foldl].
  - by exists d, st.
  - rewrite bind_run. unfold alloc at 1.
    set (st1 := mkState _ _ _).
    destruct (IH (dict_set d p (length (heap st))) st1)
      as (d' & st' & Hrun & Hkeys & Htape & Hdraws & Hpre & Hnd' & Hd').
    + subst st1. cbn. rewrite length_app. lia.
    + apply NoDup_values_dict_set; [done|].
      intros [_ Hl%lookup_lt_Some]%Hd. lia.
    + intros l [->|Hl]%values_dict_set.
      * split; [done|]. apply lookup_alloc_new.
      * destruct (Hd l Hl) as [? Hlook]. split; [done|]. by apply lookup_alloc_old.
    + exists d', st'. rewrite Hrun, Hkeys, keys_dict_set.
      split_and!; try done. etrans; [|exact Hpre]. by eexists.
Qed.

(** Construction runs [segment_teams] and then builds the dictionary: it ends
    exactly when the segmentation loop does, and then yields a well-formed
    object whose segments hold [chunks] of the teams and whose dictionary maps
    the participants' names, in first-seen order, to empty lists. *)
Lemma post_init_run fuel lp lt st ps ts :
  heap st !! lp = Some ps ->
  heap st !! lt = Some ts ->
  match chunks fuel (length ps `min` length ts) ts with
  | Some cs =>
      exists self st',
        post_init fuel lp lt st = Ok self st'
        /\ participants self = lp /\ teams self = lt
        /\ tape st' = tape st /\ draws st' = draws st
        /\ heap st `prefix_of` heap st'
        /\ Forall2 (fun l c => heap st' !! l = Some c) (segmented_teams self) cs
        /\ keys (assignments self) = first_seen ps
        /\ (forall l, l ∈ (assignments self).*2 -> heap st' !! l = Some [])
        /\ wf self st'
  | None => post_init fuel lp lt st = OutOfFuel
  end.
Proof.
  intros Hp Ht. unfold post_init, segment_teams. cbn [teams].
  pose proof (segment_loop_run fuel (mkSweepstake lp lt [] []) [] lt st ps ts ts Hp Ht Ht) as Hseg.
  destruct (chunks fuel (length ps `min` length ts) ts) as [cs|]; [|by rewrite bind_run, Hseg].
  destruct Hseg as (segs & st1 & Hrun & Htape & Hdraws & Hpre & Hsegs & Hge & Hnd).
  cbn [app] in Hrun. rewrite (bind_Ok _ _ _ _ _ Hrun).
  assert (H1p := prefix_lookup_Some _ _ _ _ Hp Hpre).
  assert (H1t := prefix_lookup_Some _ _ _ _ Ht Hpre).
  rewrite (bind_Ok _ _ _ _ _ (load_run _ _ _ H1p)).
  destruct (empty_lists_run (length (heap st1)) ps [] st1)
    as (d & st2 & Hrun2 & Hkeys & Htape2 & Hdraws2 & Hpre2 & Hnd2 & Hd); [done|constructor| |].
  { intros l Hl. by apply elem_of_nil in Hl. }
  rewrite (bind_Ok _ _ _ _ _ Hrun2).
  exists (mkSweepstake lp lt segs d), st2. cbn [participants teams segmented_teams assignments].
  assert (Hsegs2 : Forall2 (fun l c => heap st2 !! l = Some c) segs cs).
  { eapply Forall2_impl; [exact Hsegs|]. intros l c Hl. exact (prefix_lookup_Some _ _ _ _ Hl Hpre2). }
  split_and!; try done; try congruence.
  - by etrans.
  - by rewrite Hkeys, foldl_add_key_nil.
  - intros l Hl. by apply Hd.
  - assert (H2p := prefix_lookup_Some _ _ _ _ H1p Hpre2).
    assert (H2t := prefix_lookup_Some _ _ _ _ H1t Hpre2).
    apply (wf_intro _ _ ps); cbn [participants teams segmented_teams assignments].
    + done.
    + intros l [Hl Hl']%Hd. split; [by eexists|].
      apply lookup_lt_Some in H1p, H1t. split_and!; [lia..|].
      intros Hin. eapply Forall2_Forall_l in Hsegs;
        [|apply Forall_true; intros ? c Hc; exact (lookup_lt_Some _ _ _ Hc)].
      rewrite Forall_forall in Hsegs. specialize (Hsegs _ Hin). lia.
    + done.
    + by eexists.
    + eapply Forall2_Forall_l; [exact Hsegs2|].
      apply Forall_true. intros ? c Hc. by eexists.
    + intros p Hin. rewrite Hkeys, foldl_add_key_nil. by apply first_seen_elem.
Qed.

(** * Drawing *)

Lemma remove_first_perm p pool : p ∈ pool -> p :: remove_first p pool ≡ₚ pool.
Proof.
  induction pool as [|q pool IH]; cbn; [by intros ?%elem_of_nil|].
  destruct (decide (p = q)) as [->|Hne]; [done|].
  intros [?|Hin]%elem_of_cons; [done|].
  rewrite Permutation_swap. by rewrite IH.
Qed.

Lemma remove_first_length p pool :
  p ∈ pool -> S (length (remove_first p pool)) = length pool.
Proof. intros H%remove_first_perm. by apply Permutation_length in H. Qed.

Lemma random_choice_run l st v :
  heap st !! l = Some v -> v ≠ [] ->
  exists p,
    v !! (tape st (draws st) `mod` length v) = Some p
    /\ random_choice l st = Ok p (mkState (heap st) (tape st) (S (draws st))).
Proof.
  intros Hl Hv. unfold random_choice. rewrite (bind_Ok _ _ _ _ _ (load_run _ _ _ Hl)).
  assert (length v ≠ 0) as Hlen by (by destruct v).
  rewrite decide_False by done. rewrite bind_run. unfold randbelow.
  destruct (lookup_lt_is_Some_2 v (tape st (draws st) `mod` length v)) as [p Hp].
  { by apply Nat.mod_upper_bound. }
  exists p. by rewrite Hp.
Qed.

(** One turn of the loop of [assign_from_segments], on a pool that is not
    empty: one draw, the team appended to the drawn participant's list, and
    the first occurrence of the participant's name taken out of the pool. *)
Lemma assign_team_run self pool st v team :
  pool ∉ (assignments self).*2 ->
  heap st !! pool = Some v -> v ≠ [] ->
  (forall p, p ∈ v -> p ∈ keys (assignments self)) ->
  (forall l, l ∈ (assignments self).*2 -> is_Some (heap st !! l)) ->
  exists p l old,
    v !! (tape st (draws st) `mod` length v) = Some p
    /\ dict_lookup (assignments self) p = Some l
    /\ heap st !! l = Some old
    /\ assign_team self pool team st =
       Ok tt (mkState (<[pool := remove_first p v]> (<[l := old ++ [team]]> (heap st)))
                (tape st) (S (draws st))).
Proof.
  intros Hpool Hv Hne Hkeys Halive. unfold assign_team.
  destruct (random_choice_run _ _ _ Hv Hne) as (p & Hp & Hrun).
  assert (p ∈ v) as Hin by (apply list_elem_of_lookup; by eexists).
  destruct (dict_lookup_key _ _ (Hkeys _ Hin)) as [l Hl].
  destruct (Halive l (dict_lookup_value _ _ _ Hl)) as [old Hold].
  exists p, l, old. split_and!; try done.
  rewrite (bind_Ok _ _ _ _ _ Hrun). unfold dict_get. rewrite Hl.
  rewrite bind_run. cbn [mret M_ret]. rewrite bind_run.
  unfold list_append. rewrite bind_run. unfold load at 1. cbn [heap]. rewrite Hold.
  unfold store at 1. cbn [heap tape draws]. rewrite Hold.
  unfold list_remove. rewrite bind_run. unfold load. cbn [heap].
  assert (l ≠ pool) as Hlp.
  { intros ->. by apply Hpool, (dict_lookup_value _ p). }
  rewrite list_lookup_insert_ne by done. rewrite Hv.
  rewrite decide_True by done. unfold store. cbn [heap tape draws].
  by rewrite list_lookup_insert_ne, Hv by done.
Qed.

(** The whole loop, for a segment no longer than the pool.  [chosen] lists the
    participant drawn for each team; what is left of the pool and what was
    drawn make up the pool the loop started from. *)
Lemma assign_loop_run self pool : forall seg st v,
  NoDup (assignments self).*2 ->
  pool ∉ (assignments self).*2 ->
  heap st !! pool = Some v ->
  length seg <= length v ->
  (forall p, p ∈ v -> p ∈ keys (assignments self)) ->
  (forall l, l ∈ (assignments self).*2 -> is_Some (heap st !! l)) ->
  exists st' chosen v',
    for_each seg (assign_team self pool) st = Ok tt st'
    /\ tape st' = tape st
    /\ draws st' = draws st + length seg
    /\ length chosen = length seg
    /\ chosen ++ v' ≡ₚ v
    /\ heap st' !! pool = Some v'
    /\ length (heap st') = length (heap st)
    /\ (forall l, l ≠ pool -> l ∉ (assignments self).*2 -> heap st' !! l = heap st !! l)
    /\ (forall k l old,
          dict_lookup (assignments self) k = Some l ->
          heap st !! l = Some old ->
          heap st' !! l = Some (old ++ received k chosen seg)).
Proof.
  induction seg as [|team seg IH]; intros st v Hnd Hpool Hv Hlen Hkeys Halive.
  - exists st, [], v. cbn. split_and!; try done; try lia.
    intros k l old _ ->. by rewrite app_nil_r.
  - cbn [for_each]. rewrite bind_run.
    assert (v ≠ []) as Hne by (intros ->; cbn in Hlen; lia).
    destruct (assign_team_run self pool st v team Hpool Hv Hne Hkeys Halive)
      as (p & l & old & Hp & Hl & Hold & ->).
    assert (p ∈ v) as Hin by (apply list_elem_of_lookup; by eexists).
    assert (l ≠ pool) as Hlp.
    { intros ->. by apply Hpool, (dict_lookup_value _ p). }
    set (st1 := mkState _ _ _).
    assert (Hv1 : heap st1 !! pool = Some (remove_first p v)).
    { subst st1. cbn [heap]. apply list_lookup_insert_eq.
      rewrite length_insert. by eapply lookup_lt_Some. }
    destruct (IH st1 (remove_first p v) Hnd Hpool Hv1)
      as (st' & chosen & v' & Hrun & Htape & Hdraws & Hch & Hperm & Hv' & Hlen' & Hframe & Hrecv).
    + pose proof (remove_first_length _ _ Hin). cbn in Hlen. lia.
    + intros q Hq. apply Hkeys.
      rewrite <- (remove_first_perm _ _ Hin). by right.
    + intros l' Hl'. subst st1. cbn [heap].
      rewrite !list_lookup_insert_is_Some. by apply Halive.
    + exists st', (p :: chosen), v'. rewrite Hrun.
      split_and!; try done.
      * rewrite Hdraws. subst st1. cbn. lia.
      * cbn. by rewrite Hch.
      * cbn. by rewrite Hperm, remove_first_perm.
      * rewrite Hlen'. subst st1. cbn [heap]. by rewrite !length_insert.
      * intros l' Hl'1 Hl'2. rewrite Hframe by done. subst st1. cbn [heap].
        rewrite !list_lookup_insert_ne; [done| |done].
        intros <-. by apply Hl'2, (dict_lookup_value _ p).
      * intros k l' old' Hk Hold'. cbn [received].
        destruct (decide (p = k)) as [->|Hpk].
        -- assert (l' = l) as -> by congruence.
           assert (old' = old) as -> by congruence.
           rewrite (Hrecv k l (old ++ [team])); [by rewrite <- (assoc_L (++))|done|].
           subst st1. cbn [heap]. rewrite list_lookup_insert_ne by done.
           apply list_lookup_insert_eq. by eapply lookup_lt_Some.
        -- apply Hrecv; [done|]. subst st1. cbn [heap].
           rewrite !list_lookup_insert_ne; [done| |].
           ++ intros <-. apply Hpk. by eapply dict_lookup_inj.
           ++ intros <-. by apply Hpool, (dict_lookup_value _ k).
Qed.

(** [assign_from_segments] on a well-formed object and a segment no longer
    than the participants list: it ends without an exception after one draw
    per team, allocates one list (the copy), leaves every other list that is
    not in the dictionary as it was, and appends to the list of each key the
    teams that key received. *)
Lemma assign_from_segments_run self st ps segment seg :
  wf self st ->
  heap st !! participants self = Some ps ->
  heap st !! segment = Some seg ->
  length seg <= length ps ->
  exists st' chosen rest,
    assign_from_segments self segment st = Ok tt st'
    /\ tape st' = tape st
    /\ draws st' = draws st + length seg
    /\ length chosen = length seg
    /\ chosen ++ rest ≡ₚ ps
    /\ heap st' !! length (heap st) = Some rest
    /\ length (heap st') = S (length (heap st))
    /\ (forall l, l < length (heap st) -> l ∉ (assignments self).*2 ->
          heap st' !! l = heap st !! l)
    /\ (forall k l old,
          dict_lookup (assignments self) k = Some l ->
          heap st !! l = Some old ->
          heap st' !! l = Some (old ++ received k chosen seg)).
Proof.
  intros Hwf Hps Hseg Hlen. unfold assign_from_segments, list_copy.
  rewrite bind_run, (bind_Ok _ _ _ _ _ (load_run _ _ _ Hps)). unfold alloc.
  set (pool := length (heap st)). set (st1 := mkState _ _ _).
  assert (Hseg1 : heap st1 !! segment = Some seg) by by apply lookup_alloc_old.
  rewrite (bind_Ok _ _ _ _ _ (load_run _ _ _ Hseg1)).
  assert (Hpool : pool ∉ (assignments self).*2).
  { intros [old Hold%lookup_lt_Some]%(wf_alive _ _ Hwf). subst pool. lia. }
  destruct (assign_loop_run self pool seg st1 ps (wf_nodup _ _ Hwf) Hpool)
    as (st' & chosen & rest & Hrun & Htape & Hdraws & Hch & Hperm & Hrest & Hlen' & Hframe & Hrecv).
  - apply lookup_alloc_new.
  - done.
  - intros p Hp. by eapply wf_keys.
  - intros l [old Hold]%(wf_alive _ _ Hwf). exists old. by apply lookup_alloc_old.
  - exists st', chosen, rest. split_and!; try done.
    + rewrite Hlen'. subst st1. cbn. rewrite length_app. cbn. lia.
    + intros l Hl1 Hl2. rewrite Hframe; [|subst pool; lia|done].
      subst st1. cbn [heap]. by rewrite lookup_app_l.
    + intros k l old Hk Hold. apply Hrecv; [done|]. by apply lookup_alloc_old.
Qed.

(** The invariant is kept by any step that only grows the store and leaves
    the lists outside the dictionary as they were. *)
Lemma wf_frame self st st' :
  wf self st ->
  length (heap st) <= length (heap st') ->
  (forall l, l < length (heap st) -> l ∉ (assignments self).*2 ->
     heap st' !! l = heap st !! l) ->
  wf self st'.
Proof.
  intros Hwf Hlen Hframe.
  assert (Hkeep : forall l, is_Some (heap st !! l) -> is_Some (heap st' !! l)).
  { intros l Hl%lookup_lt_is_Some. apply lookup_lt_is_Some. lia. }
  assert (Hp : heap st' !! participants self = heap st !! participants self).
  { destruct (wf_inputs _ _ Hwf) as [Hp%lookup_lt_is_Some _].
    apply Hframe; [done|]. intros Hin. by destruct (wf_apart _ _ Hwf _ Hin). }
  destruct (wf_inputs _ _ Hwf) as [[ps Hps] Ht].
  apply (wf_intro _ _ ps).
  - by apply wf_nodup in Hwf.
  - intros l Hl. split; [by apply Hkeep, (wf_alive _ _ Hwf)|by apply (wf_apart _ _ Hwf)].
  - by rewrite Hp.
  - by apply Hkeep.
  - eapply Forall_impl; [apply (wf_segments _ _ Hwf)|]. intros l. apply Hkeep.
  - intros p. by apply (wf_keys _ _ Hwf).
Qed.

(** The loop of [assign_teams] over segments that are no longer than the
    participants list.  [chosens] lists, segment by segment, the participants
    drawn; each such list is drawn from the participants without repetition. *)
Lemma assign_segments_run self ps : forall ls segs st,
  wf self st ->
  heap st !! participants self = Some ps ->
  Forall2 (fun l c => heap st !! l = Some c) ls segs ->
  Forall (fun l => l ∉ (assignments self).*2) ls ->
  Forall (fun c => length c <= length ps) segs ->
  exists st' chosens,
    for_each ls (assign_from_segments self) st = Ok tt st'
    /\ tape st' = tape st
    /\ draws st' = draws st + length (concat segs)
    /\ Forall2 (fun ch c => length ch = length c /\ ch ⊆+ ps) chosens segs
    /\ length (heap st) <= length (heap st')
    /\ (forall l, l < length (heap st) -> l ∉ (assignments self).*2 ->
          heap st' !! l = heap st !! l)
    /\ (forall k l old,
          dict_lookup (assignments self) k = Some l ->
          heap st !! l = Some old ->
          heap st' !! l = Some (old ++ concat (zip_with (received k) chosens segs)))
    /\ (forall i, exists sti,
          for_each (take i ls) (assign_from_segments self) st = Ok tt sti
          /\ forall k l old,
               dict_lookup (assignments self) k = Some l ->
               heap st !! l = Some old ->
               heap sti !! l =
               Some (old ++ concat (take i (zip_with (received k) chosens segs))))
    /\ wf self st'.
Proof.
  induction ls as [|l ls IH]; intros segs st Hwf Hps Hsegs Hout Hlens.
  - apply Forall2_nil_inv_l in Hsegs as ->. exists st, []. cbn.
    split_and!; try done; try lia.
    + intros k l old _ ->. by rewrite app_nil_r.
    + intros i. exists st. rewrite !take_nil. split; [done|].
      intros k l old _ ->. by rewrite app_nil_r.
  - apply Forall2_cons_inv_l in Hsegs as (seg & segs' & Hseg & Hsegs & ->).
    apply Forall_cons in Hout as [Hl Hout]. apply Forall_cons in Hlens as [Hlen Hlens].
    cbn [for_each]. rewrite bind_run.
    destruct (assign_from_segments_run self st ps l seg Hwf Hps Hseg Hlen)
      as (st1 & chosen & rest & Hrun1 & Htape & Hdraws & Hch & Hperm & _ & Hlen1 & Hframe & Hrecv).
    rewrite Hrun1.
    assert (Hwf1 : wf self st1) by (apply (wf_frame self st); [done|lia|done]).
    assert (Hin : forall l', is_Some (heap st !! l') -> l' ∉ (assignments self).*2 ->
                   heap st1 !! l' = heap st !! l').
    { intros l' Hl'%lookup_lt_is_Some ?. by apply Hframe. }
    assert (Hps1 : heap st1 !! participants self = Some ps).
    { rewrite Hin; [done|by eexists|]. intros H. by destruct (wf_apart _ _ Hwf _ H). }
    destruct (IH segs' st1 Hwf1 Hps1) as
      (st' & chosens & Hrun & Htape' & Hdraws' & Hchs & Hlen' & Hframe' & Hrecv' & Hpre' & Hwf');
      [|done..|].
    { clear -Hsegs Hout Hin. induction Hsegs as [|l0 c0 ls0 cs0 H0 Hs IHs]; [constructor|].
      apply Forall_cons in Hout as [? ?]. constructor; [|by apply IHs].
      rewrite Hin; [done|by eexists|done]. }
    exists st', (chosen :: chosens). rewrite Hrun.
    split_and!; try done.
    + congruence.
    + rewrite Hdraws', Hdraws. cbn. rewrite length_app. lia.
    + constructor; [|done]. split; [done|]. rewrite <- Hperm. by apply submseteq_inserts_r.
    + lia.
    + intros l' Hl'1 Hl'2. rewrite Hframe' by (done || lia). by apply Hframe.
    + intros k l' old Hk Hold. cbn [zip_with concat].
      rewrite (Hrecv' k l' (old ++ received k chosen seg)); [|done|by apply Hrecv].
      by rewrite <- (assoc_L (++)).
    + intros [|i].
      * exists st. split; [done|]. intros k l' old _ ->. cbn. by rewrite app_nil_r.
      * destruct (Hpre' i) as (sti & Hruni & Hreci). exists sti.
        cbn [take for_each]. rewrite bind_run, Hrun1. split; [done|].
        intros k l' old Hk Hold. cbn [zip_with take concat].
        rewrite (Hreci k l' (old ++ received k chosen seg)); [|done|by apply Hrecv].
        by rewrite <- (assoc_L (++)).
Qed.

(** * What a participant receives *)

Lemma count_elem x v : x ∈ v <-> 1 <= count x v.
Proof.
  unfold count. split.
  - intros H. assert (x ∈ filter (fun y => y = x) v) as Hin by by apply list_elem_of_filter.
    destruct (filter _ v); [by apply elem_of_nil in Hin|cbn; lia].
  - intros H. destruct (filter (fun y => y = x) v) as [|y w] eqn:E; [cbn in H; lia|].
    assert (y ∈ filter (fun y => y = x) v) as [-> ?]%list_elem_of_filter; [|done].
    rewrite E. left.
Qed.

Lemma count_app x v w : count x (v ++ w) = count x v + count x w.
Proof. unfold count. by rewrite filter_app, length_app. Qed.

Lemma count_perm x v w : v ≡ₚ w -> count x v = count x w.
Proof. intros H. unfold count. by rewrite H. Qed.

Lemma count_submseteq x v w : v ⊆+ w -> count x v <= count x w.
Proof.
  intros [k Hk]%submseteq_Permutation. rewrite (count_perm _ _ _ Hk), count_app. lia.
Qed.

Lemma count_NoDup x v : NoDup v -> count x v <= 1.
Proof.
  intros Hnd. unfold count.
  pose proof (NoDup_filter (fun y => y = x) v Hnd) as Hf.
  destruct (filter (fun y => y = x) v) as [|a [|b w]] eqn:E; cbn; [lia..|].
  assert (a = x) as ->.
  { assert (a ∈ filter (fun y => y = x) v) as [? _]%list_elem_of_filter; [rewrite E; left|done]. }
  assert (b = x) as ->.
  { assert (b ∈ filter (fun y => y = x) v) as [? _]%list_elem_of_filter;
      [rewrite E; right; left|done]. }
  apply NoDup_cons in Hf as [Hf _]. exfalso. apply Hf. left.
Qed.

Lemma received_sublist k : forall chosen seg, received k chosen seg `sublist_of` seg.
Proof.
  induction chosen as [|p chosen IH]; intros [|team seg]; cbn;
    try apply sublist_nil_l.
  destruct (decide (p = k)); [by apply sublist_skip|by apply sublist_cons].
Qed.

Lemma received_length k : forall chosen seg,
  length chosen = length seg -> length (received k chosen seg) = count k chosen.
Proof.
  unfold count. induction chosen as [|p chosen IH]; intros [|team seg] Hlen; try done.
  cbn [received]. injection Hlen as Hlen. rewrite filter_cons.
  destruct (decide (p = k)); cbn; by rewrite IH.
Qed.

(** With pairwise distinct names, a participant receives at most one team of a
    segment, and exactly one when the segment is as long as the participants
    list. *)
Lemma received_at_most_one k chosen seg ps :
  NoDup ps -> chosen ⊆+ ps -> length chosen = length seg ->
  length (received k chosen seg) <= 1.
Proof.
  intros Hnd Hsub Hlen. rewrite received_length by done.
  etrans; [by apply count_submseteq|by apply count_NoDup].
Qed.

Lemma received_bound k chosen seg ps :
  chosen ⊆+ ps -> length chosen = length seg ->
  length (received k chosen seg) <= count k ps.
Proof. intros Hsub Hlen. rewrite received_length by done. by apply count_submseteq. Qed.

Lemma received_exactly_one k chosen seg ps :
  NoDup ps -> chosen ⊆+ ps -> length chosen = length seg -> length seg = length ps ->
  k ∈ ps -> exists team, received k chosen seg = [team] /\ team ∈ seg.
Proof.
  intros Hnd Hsub Hlen Hfull Hk.
  assert (length (received k chosen seg) = 1) as H1.
  { rewrite received_length by done.
    rewrite (count_perm _ _ ps) by (apply submseteq_length_Permutation; [done|lia]).
    apply count_elem in Hk. pose proof (count_NoDup k ps Hnd). lia. }
  destruct (received k chosen seg) as [|team [|]] eqn:E; try done.
  exists team. split; [done|].
  eapply elem_of_sublist; [|apply (received_sublist k chosen seg)]. rewrite E. left.
Qed.

(** Every team of a segment goes to exactly one key: over all keys, the teams
    received are the segment, up to order. *)
Lemma received_one_key (r : string -> list string) p team ks :
  NoDup ks -> p ∈ ks ->
  concat ((fun k => if decide (p = k) then team :: r k else r k) <$> ks)
  ≡ₚ team :: concat (r <$> ks).
Proof.
  induction ks as [|k ks IH]; [by intros _ ?%elem_of_nil|].
  intros [Hk Hnd]%NoDup_cons Hin. cbn.
  destruct (decide (p = k)) as [->|Hne].
  - cbn. do 2 f_equiv.
    assert ((fun k0 => if decide (k = k0) then team :: r k0 else r k0) <$> ks = r <$> ks)
      as ->; [|done].
    apply list_fmap_ext. intros i k' Hk'.
    rewrite decide_False; [done|]. intros <-. apply Hk. by eapply list_elem_of_lookup_2.
  - apply elem_of_cons in Hin as [?|Hin]; [done|].
    rewrite IH by done. by rewrite Permutation_middle.
Qed.

Lemma received_all ks : forall chosen seg,
  NoDup ks -> (forall p, p ∈ chosen -> p ∈ ks) -> length chosen = length seg ->
  concat ((fun k => received k chosen seg) <$> ks) ≡ₚ seg.
Proof.
  induction chosen as [|p chosen IH]; intros [|team seg] Hnd Hin Hlen; try done.
  - cbn. clear. induction ks; [done|]. by cbn.
  - cbn [received]. rewrite received_one_key; [|done|apply Hin; left].
    f_equiv. apply IH; [done| |by injection Hlen]. intros q Hq. apply Hin. by right.
Qed.

Lemma concat_fmap_app (f g : string -> list string) ks :
  concat ((fun k => f k ++ g k) <$> ks) ≡ₚ concat (f <$> ks) ++ concat (g <$> ks).
Proof.
  induction ks as [|k ks IH]; [done|]. cbn. rewrite IH.
  rewrite <- !(assoc_L (++)). f_equiv.
  rewrite !(assoc_L (++)). f_equiv. apply Permutation_app_comm.
Qed.

Lemma received_all_segments ks ps : forall chosens segs,
  NoDup ks -> (forall p, p ∈ ps -> p ∈ ks) ->
  Forall2 (fun ch c => length ch = length c /\ ch ⊆+ ps) chosens segs ->
  concat ((fun k => concat (zip_with (received k) chosens segs)) <$> ks) ≡ₚ concat segs.
Proof.
  intros chosens segs Hnd Hks H. induction H as [|ch c chosens segs [Hlen Hsub] _ IH].
  - cbn. clear. induction ks; [done|]. by cbn.
  - cbn [zip_with concat]. rewrite concat_fmap_app, IH. f_equiv.
    apply received_all; [done| |done].
    intros p Hp. apply Hks. by eapply elem_of_submseteq.
Qed.

(** * The whole run *)

Lemma for_each_app {A} (xs ys : list A) (body : A -> M unit) st st' :
  for_each xs body st = Ok tt st' ->
  for_each (xs ++ ys) body st = for_each ys body st'.
Proof.
  revert st. induction xs as [|x xs IH]; intros st; cbn [for_each app].
  - by intros [= ->].
  - rewrite !bind_run. destruct (body x st) as [[] st1| |]; [|done..]. apply IH.
Qed.

Lemma assigned_lookup self st k l :
  dict_lookup (assignments self) k = Some l -> assigned self st k = heap st !! l.
Proof. intros H. unfold assigned. by rewrite H. Qed.

(** Construction with at least one participant (or no team) ends within
    [length ts] iterations of the segmentation loop. *)
Lemma construction fuel lp lt st ps ts :
  heap st !! lp = Some ps ->
  heap st !! lt = Some ts ->
  (ts ≠ [] -> 1 <= length ps) ->
  length ts <= fuel ->
  exists self st1 cs,
    post_init fuel lp lt st = Ok self st1
    /\ chunks fuel (length ps `min` length ts) ts = Some cs
    /\ participants self = lp /\ teams self = lt
    /\ tape st1 = tape st /\ draws st1 = draws st
    /\ heap st1 !! lp = Some ps /\ heap st1 !! lt = Some ts
    /\ Forall2 (fun l c => heap st1 !! l = Some c) (segmented_teams self) cs
    /\ keys (assignments self) = first_seen ps
    /\ (forall l, l ∈ (assignments self).*2 -> heap st1 !! l = Some [])
    /\ wf self st1.
Proof.
  intros Hp Ht Hne Hfuel.
  destruct (chunks_tiles fuel (length ps `min` length ts) ts) as (cs & Hcs & _); [|done|].
  { intros H. specialize (Hne H). destruct ts; [done|]. cbn in *. lia. }
  pose proof (post_init_run fuel lp lt st ps ts Hp Ht) as H. rewrite Hcs in H.
  destruct H as (self & st1 & Hrun & ? & ? & ? & ? & Hpre & ? & ? & ? & ?).
  exists self, st1, cs. split_and!; try done; by eapply prefix_lookup_Some.
Qed.

(** The state in which [assign_teams] reaches a segment, and the turn of
    [assign_from_segments] on it. *)
Lemma segment_turn self st1 ps cs before segment after :
  wf self st1 ->
  heap st1 !! participants self = Some ps ->
  Forall2 (fun l c => heap st1 !! l = Some c) (segmented_teams self) cs ->
  Forall (fun c => length c <= length ps) cs ->
  segmented_teams self = before ++ segment :: after ->
  exists st2 st3 seg chosen,
    for_each before (assign_from_segments self) st1 = Ok tt st2
    /\ heap st2 !! segment = Some seg
    /\ cs !! length before = Some seg
    /\ wf self st2
    /\ heap st2 !! participants self = Some ps
    /\ assign_from_segments self segment st2 = Ok tt st3
    /\ draws st3 = draws st2 + length seg
    /\ length chosen = length seg
    /\ chosen ⊆+ ps
    /\ (forall k l old,
          dict_lookup (assignments self) k = Some l ->
          heap st2 !! l = Some old ->
          heap st3 !! l = Some (old ++ received k chosen seg)).
Proof.
  intros Hwf Hps Hsegs Hlens Hsplit.
  assert (Hout : Forall (fun l => l ∉ (assignments self).*2) (segmented_teams self)).
  { apply Forall_forall. intros l Hl Hin. by destruct (wf_apart _ _ Hwf _ Hin) as (_ & _ & ?). }
  rewrite Hsplit in Hsegs, Hout.
  apply Forall2_app_inv_l in Hsegs as (cs1 & cs2 & Hs1 & Hs2 & ->).
  apply Forall2_cons_inv_l in Hs2 as (seg & cs3 & Hseg & _ & ->).
  apply Forall_app in Hout as [Hout1 [Hout2 _]%Forall_cons].
  apply Forall_app in Hlens as [Hlens1 [Hlen _]%Forall_cons].
  destruct (assign_segments_run self ps before cs1 st1 Hwf Hps Hs1 Hout1 Hlens1)
    as (st2 & chosens & Hrun & _ & _ & _ & Hgrow & Hframe & _ & _ & Hwf2).
  assert (Hseg2 : heap st2 !! segment = Some seg).
  { rewrite Hframe; [done|by eapply lookup_lt_Some|done]. }
  assert (Hps2 : heap st2 !! participants self = Some ps).
  { rewrite Hframe; [done|by eapply lookup_lt_Some|].
    intros Hin. by destruct (wf_apart _ _ Hwf _ Hin). }
  destruct (assign_from_segments_run self st2 ps segment seg Hwf2 Hps2 Hseg2 Hlen)
    as (st3 & chosen & rest & Hrun3 & _ & Hdraws & Hch & Hperm & _ & _ & _ & Hrecv).
  exists st2, st3, seg, chosen. split_and!; try done.
  - rewrite (Forall2_length _ _ _ Hs1). by rewrite list_lookup_middle.
  - rewrite <- Hperm. by apply submseteq_inserts_r.
Qed.

(** * The properties of the specification *)

(** Without participants and with a team to assign, the loop of
    [segment_teams] takes an empty segment and leaves the remaining teams as
    they are: construction never returns and raises nothing. *)
Lemma post_init_no_participants fuel lp lt st t ts :
  heap st !! lp = Some [] ->
  heap st !! lt = Some (t :: ts) ->
  post_init fuel lp lt st = OutOfFuel.
Proof.
  intros Hp Ht. pose proof (post_init_run fuel lp lt st [] (t :: ts) Hp Ht) as H.
  cbn [length Nat.min] in H. by rewrite chunks_zero in H.
Qed.

(** C1 (the code at the failing input): with participants [[]] and teams
    [["T1"]], construction raises no [InvalidInput] and no other exception;
    whatever the fuel, the segmentation loop is still running when it is used
    up. *)
Theorem post_init_empty_participants_unfinished :
  forall fuel tp, post_init fuel 0 1 (init_state tp [] ["T1"]) = OutOfFuel.
Proof. intros fuel tp. by apply (post_init_no_participants _ _ _ _ "T1" []). Qed.

(** C4: with at least one participant, [segment_teams] returns within
    [length ts] iterations; the segments it returns, concatenated in order,
    are the teams; every segment but the last has [min P N] teams, the last has
    between 1 and [min P N]; with 3 participants and 7 teams the sizes are
    3, 3, 1. *)
Theorem segment_teams_tiles self st ps ts fuel :
  heap st !! participants self = Some ps ->
  heap st !! teams self = Some ts ->
  1 <= length ps ->
  length ts <= fuel ->
  exists ls st' cs,
    segment_teams fuel self st = Ok ls st'
    /\ deref st' ls = Some cs
    /\ concat cs = ts
    /\ (forall i c, cs !! i = Some c -> S i < length cs ->
          length c = length ps `min` length ts)
    /\ (forall c, last cs = Some c -> 1 <= length c <= length ps `min` length ts)
    /\ (length ps = 3 -> length ts = 7 -> length <$> cs = [3; 3; 1]).
Proof.
  intros Hp Ht HP Hfuel.
  destruct (chunks_tiles fuel (length ps `min` length ts) ts)
    as (cs & Hcs & Hcat & Hfull & Hlast); [|done|].
  { intros H. destruct ts; [done|]. cbn [length]. lia. }
  pose proof (segment_loop_run fuel self [] (teams self) st ps ts ts Hp Ht Ht) as H.
  rewrite Hcs in H. destruct H as (ls & st' & Hrun & _ & _ & _ & Hls & _).
  exists ls, st', cs. split_and!; try done.
  - by apply mapM_Some_2.
  - intros H3 H7. rewrite H3, H7 in Hcs.
    destruct ts as [|t1 [|t2 [|t3 [|t4 [|t5 [|t6 [|t7 [|]]]]]]]]; try done.
    assert (chunks 7 3 [t1; t2; t3; t4; t5; t6; t7]
            = Some [[t1; t2; t3]; [t4; t5; t6]; [t7]]) as H by reflexivity.
    by rewrite (chunks_deterministic _ _ _ _ _ _ Hcs H).
Qed.

Lemma segment_teams_tiles_witness :
  exists ls st' cs,
    segment_teams 7 (mkSweepstake 0 1 [] [])
      (init_state (fun _ => 0) ["A"; "B"; "C"] ["T1"; "T2"; "T3"; "T4"; "T5"; "T6"; "T7"])
    = Ok ls st'
    /\ deref st' ls = Some cs
    /\ concat cs = ["T1"; "T2"; "T3"; "T4"; "T5"; "T6"; "T7"]
    /\ (forall i c, cs !! i = Some c -> S i < length cs -> length c = 3 `min` 7)
    /\ (forall c, last cs = Some c -> 1 <= length c <= 3 `min` 7)
    /\ (3 = 3 -> 7 = 7 -> length <$> cs = [3; 3; 1]).
Proof.
  apply (segment_teams_tiles (mkSweepstake 0 1 [] []) _ ["A"; "B"; "C"]
           ["T1"; "T2"; "T3"; "T4"; "T5"; "T6"; "T7"] 7);
    [reflexivity | reflexivity | cbn; lia | cbn; lia].
Defined.

(** C8: two runs of [segment_teams] on objects and states that agree on the
    number of participants and on the teams show the same thing to their
    callers, whatever else the two states hold (other lists, the dictionary,
    the random tape and the draws taken): with equal fuel the same outcome,
    and whenever both return, the same segments. *)
Theorem segment_teams_deterministic self1 self2 st1 st2 ps1 ps2 ts :
  heap st1 !! participants self1 = Some ps1 ->
  heap st2 !! participants self2 = Some ps2 ->
  heap st1 !! teams self1 = Some ts ->
  heap st2 !! teams self2 = Some ts ->
  length ps1 = length ps2 ->
  (forall fuel,
     observe (segment_teams fuel self1 st1) = observe (segment_teams fuel self2 st2))
  /\ (forall fuel1 fuel2 cs1 cs2,
        observe (segment_teams fuel1 self1 st1) = Returned cs1 ->
        observe (segment_teams fuel2 self2 st2) = Returned cs2 ->
        cs1 = cs2).
Proof.
  intros Hp1 Hp2 Ht1 Ht2 Hlen. split.
  - intros fuel.
    rewrite (observe_segment_teams _ _ _ _ _ Hp1 Ht1), (observe_segment_teams _ _ _ _ _ Hp2 Ht2).
    by rewrite Hlen.
  - intros fuel1 fuel2 cs1 cs2.
    rewrite (observe_segment_teams _ _ _ _ _ Hp1 Ht1), (observe_segment_teams _ _ _ _ _ Hp2 Ht2).
    rewrite Hlen.
    destruct (chunks fuel1 _ ts) as [c1|] eqn:E1; [|done].
    destruct (chunks fuel2 _ ts) as [c2|] eqn:E2; [|done].
    intros [= <-] [= <-]. by eapply chunks_deterministic.
Qed.

Lemma segment_teams_deterministic_witness :
  let self1 := mkSweepstake 0 1 [] [] in
  let st1 := init_state (fun _ => 0) ["A"; "B"] ["T1"; "T2"; "T3"] in
  let self2 := mkSweepstake 1 0 [2; 3] [("X", 4); ("Y", 5)] in
  let st2 := mkState [["T1"; "T2"; "T3"]; ["X"; "Y"]; ["T1"; "T2"]; ["T3"]; ["T1"]; ["T2"]]
               (fun n => n) 2 in
  (forall fuel,
     observe (segment_teams fuel self1 st1) = observe (segment_teams fuel self2 st2))
  /\ (forall fuel1 fuel2 cs1 cs2,
        observe (segment_teams fuel1 self1 st1) = Returned cs1 ->
        observe (segment_teams fuel2 self2 st2) = Returned cs2 ->
        cs1 = cs2).
Proof.
  apply (segment_teams_deterministic _ _ _ _ ["A"; "B"] ["X"; "Y"] ["T1"; "T2"; "T3"]);
    reflexivity.
Defined.

(** C7: whenever construction returns, the dictionary has the participants'
    names as keys, each once, in the order of their first occurrence, and
    every key maps to an empty list; construction does return when there is a
    participant or no team; for participants [["A"]] and no team the dictionary
    is [{"A": []}], there is no segment, and [assign_teams] takes no draw. *)
Theorem post_init_assignments fuel lp lt st ps ts :
  heap st !! lp = Some ps ->
  heap st !! lt = Some ts ->
  (forall self st',
     post_init fuel lp lt st = Ok self st' ->
     keys (assignments self) = first_seen ps
     /\ NoDup (keys (assignments self))
     /\ (forall p, p ∈ keys (assignments self) <-> p ∈ ps)
     /\ (forall k, k ∈ keys (assignments self) -> assigned self st' k = Some []))
  /\ ((ts ≠ [] -> 1 <= length ps) -> length ts <= fuel ->
      exists self st', post_init fuel lp lt st = Ok self st')
  /\ (ps = ["A"] -> ts = [] ->
      exists self st',
        post_init fuel lp lt st = Ok self st'
        /\ keys (assignments self) = ["A"]
        /\ assigned self st' "A" = Some []
        /\ segmented_teams self = []
        /\ exists st'', assign_teams self st' = Ok tt st'' /\ draws st'' = draws st').
Proof.
  intros Hp Ht.
  assert (Hall : forall self st',
    post_init fuel lp lt st = Ok self st' ->
    keys (assignments self) = first_seen ps
    /\ NoDup (keys (assignments self))
    /\ (forall p, p ∈ keys (assignments self) <-> p ∈ ps)
    /\ (forall k, k ∈ keys (assignments self) -> assigned self st' k = Some [])).
  { intros self st' Hrun.
    pose proof (post_init_run fuel lp lt st ps ts Hp Ht) as H.
    destruct (chunks fuel _ ts) as [cs|]; [|congruence].
    destruct H as (self0 & st0 & Hrun0 & _ & _ & _ & _ & _ & _ & Hkeys & Hempty & _).
    rewrite Hrun0 in Hrun. injection Hrun as <- <-.
    rewrite Hkeys. split_and!; [done|apply first_seen_NoDup|apply first_seen_elem|].
    intros k Hk. rewrite <- Hkeys in Hk.
    destruct (dict_lookup_key _ _ Hk) as [l Hl].
    rewrite (assigned_lookup _ _ _ _ Hl). by apply Hempty, (dict_lookup_value _ k). }
  split_and!; [done| |].
  - intros Hne Hfuel.
    destruct (construction fuel lp lt st ps ts Hp Ht Hne Hfuel) as (self & st' & _ & ? & _).
    by exists self, st'.
  - intros -> ->.
    destruct (construction fuel lp lt st ["A"] [] Hp Ht) as
      (self & st' & cs & Hrun & Hcs & _ & _ & _ & _ & _ & _ & Hsegs & _); [done|cbn; lia|].
    destruct (Hall self st' Hrun) as (Hkeys & _ & _ & Hempty).
    assert (cs = []) as -> by (destruct fuel; cbn in Hcs; congruence).
    apply Forall2_nil_inv_r in Hsegs.
    exists self, st'. split_and!; try done.
    + apply Hempty. rewrite Hkeys. cbn. left.
    + exists st'. unfold assign_teams. by rewrite Hsegs.
Qed.

Lemma post_init_assignments_witness :
  let st := init_state (fun _ => 0) ["A"] [] in
  (forall self st',
     post_init 0 0 1 st = Ok self st' ->
     keys (assignments self) = first_seen ["A"]
     /\ NoDup (keys (assignments self))
     /\ (forall p, p ∈ keys (assignments self) <-> p ∈ ["A"])
     /\ (forall k, k ∈ keys (assignments self) -> assigned self st' k = Some []))
  /\ ((@nil string ≠ [] -> 1 <= 1) -> 0 <= 0 ->
      exists self st', post_init 0 0 1 st = Ok self st')
  /\ (["A"] = ["A"] -> @nil string = [] ->
      exists self st',
        post_init 0 0 1 st = Ok self st'
        /\ keys (assignments self) = ["A"]
        /\ assigned self st' "A" = Some []
        /\ segmented_teams self = []
        /\ exists st'', assign_teams self st' = Ok tt st'' /\ draws st'' = draws st').
Proof.
  apply (post_init_assignments 0 0 1 (init_state (fun _ => 0) ["A"] []) ["A"] []);
    reflexivity.
Defined.

(** A team that occurs once among all the lists is in the list of exactly one
    key, once. *)
Lemma count_concat_none t : forall lists v,
  count t (concat lists) = 0 -> v ∈ lists -> t ∉ v.
Proof.
  induction lists as [|w lists IH]; intros v H Hv; [by apply elem_of_nil in Hv|].
  cbn [concat] in H. rewrite count_app in H.
  apply elem_of_cons in Hv as [->|Hv].
  - intros Hin%count_elem. lia.
  - apply IH; [lia|done].
Qed.

Lemma unique_holder (f : string -> option (list string)) t : forall ks lists,
  NoDup ks ->
  Forall2 (fun k v => f k = Some v) ks lists ->
  count t (concat lists) = 1 ->
  exists k v,
    k ∈ ks /\ f k = Some v /\ count t v = 1
    /\ forall k' v', k' ∈ ks -> f k' = Some v' -> t ∈ v' -> k' = k.
Proof.
  intros ks lists Hnd H. induction H as [|k v ks lists Hk Hrest IH]; [done|].
  apply NoDup_cons in Hnd as [Hnotin Hnd]. cbn [concat]. rewrite count_app. intros Hc.
  assert (Hfind : forall k' v', k' ∈ ks -> f k' = Some v' -> v' ∈ lists).
  { intros k' v' [i Hi]%list_elem_of_lookup Hv'.
    destruct (Forall2_lookup_l _ _ _ _ _ Hrest Hi) as (v'' & Hv'' & Hf).
    assert (v'' = v') as -> by congruence. by eapply list_elem_of_lookup_2. }
  destruct (decide (count t v = 0)) as [Hz|Hnz].
  - destruct IH as (k0 & v0 & Hk0 & Hf0 & Hc0 & Huniq); [done|lia|].
    exists k0, v0. split_and!; try done; [by right|].
    intros k' v' [->|Hin]%elem_of_cons Hf Ht; [|by eapply Huniq].
    assert (v' = v) as -> by congruence. apply count_elem in Ht. lia.
  - exists k, v. split_and!; try done; [left|lia|].
    intros k' v' [->|Hin]%elem_of_cons Hf Ht; [done|].
    exfalso. eapply (count_concat_none t lists v'); [lia|by eapply Hfind|done].
Qed.

(** C2: with at least one participant, construction and [assign_teams] end
    without an exception; afterwards the lists of all keys together hold
    exactly the teams (as many times each as the input has it), so [N] teams
    in all, and a team that occurs once in the input is in the list of exactly
    one key, once. *)
Theorem assign_teams_conserves fuel lp lt st ps ts :
  heap st !! lp = Some ps ->
  heap st !! lt = Some ts ->
  1 <= length ps ->
  length ts <= fuel ->
  exists self st1 st2 lists,
    post_init fuel lp lt st = Ok self st1
    /\ assign_teams self st1 = Ok tt st2
    /\ Forall2 (fun k v => assigned self st2 k = Some v) (keys (assignments self)) lists
    /\ concat lists ≡ₚ ts
    /\ length (concat lists) = length ts
    /\ (forall t, count t ts = 1 ->
          exists k v,
            assigned self st2 k = Some v /\ count t v = 1
            /\ forall k' v', assigned self st2 k' = Some v' -> t ∈ v' -> k' = k).
Proof.
  intros Hp Ht HP Hfuel.
  destruct (construction fuel lp lt st ps ts Hp Ht) as
    (self & st1 & cs & Hrun & Hcs & Hlp & Hlt & _ & _ & Hp1 & Ht1 & Hsegs & Hkeys & Hempty & Hwf);
    [lia|done|].
  destruct (chunks_tiles fuel (length ps `min` length ts) ts) as (cs' & Hcs' & Hcat & _); [|done|].
  { intros H. destruct ts; [done|]. cbn [length]. lia. }
  assert (cs' = cs) as -> by congruence.
  assert (Hlens : Forall (fun c => length c <= length ps) cs).
  { eapply Forall_impl; [by eapply chunks_length_le|]. cbn. intros; lia. }
  assert (Hout : Forall (fun l => l ∉ (assignments self).*2) (segmented_teams self)).
  { apply Forall_forall. intros l Hl Hin. by destruct (wf_apart _ _ Hwf _ Hin) as (_ & _ & ?). }
  rewrite <- Hlp in Hp1.
  destruct (assign_segments_run self ps _ cs st1 Hwf Hp1 Hsegs Hout Hlens)
    as (st2 & chosens & Hrun2 & _ & _ & Hch & _ & _ & Hrecv & _).
  set (final := fun k => concat (zip_with (received k) chosens cs)).
  assert (Hfinal : forall k, k ∈ keys (assignments self) -> assigned self st2 k = Some (final k)).
  { intros k Hk. destruct (dict_lookup_key _ _ Hk) as [l Hl].
    rewrite (assigned_lookup _ _ _ _ Hl).
    apply (Hrecv k l []); [done|]. by apply Hempty, (dict_lookup_value _ k). }
  assert (Hperm : concat (final <$> keys (assignments self)) ≡ₚ ts).
  { rewrite <- Hcat. apply (received_all_segments _ ps); [|intros p|done].
    - rewrite Hkeys. apply first_seen_NoDup.
    - rewrite Hkeys. apply first_seen_elem. }
  assert (Hlists : Forall2 (fun k v => assigned self st2 k = Some v)
                     (keys (assignments self)) (final <$> keys (assignments self))).
  { apply Forall2_fmap_r, Forall_Forall2_diag, Forall_forall. intros k Hk. by apply Hfinal. }
  exists self, st1, st2, (final <$> keys (assignments self)).
  split_and!; try done.
  - by rewrite Hperm.
  - intros t Hcount.
    assert (Hndk : NoDup (keys (assignments self)))
      by (rewrite Hkeys; apply first_seen_NoDup).
    destruct (unique_holder (assigned self st2) t _ _ Hndk Hlists)
      as (k & v & Hk & Hv & Hc & Huniq).
    { by rewrite (count_perm _ _ _ Hperm). }
    exists k, v. split_and!; try done.
    intros k' v' Hv' Hin. apply (Huniq k' v'); [|done..].
    unfold assigned in Hv'. destruct (dict_lookup (assignments self) k') eqn:E; [|done].
    by eapply dict_lookup_is_key.
Qed.

Lemma assign_teams_conserves_witness :
  exists self st1 st2 lists,
    post_init 3 0 1 (init_state (fun n => n) ["A"; "B"] ["T1"; "T2"; "T3"]) = Ok self st1
    /\ assign_teams self st1 = Ok tt st2
    /\ Forall2 (fun k v => assigned self st2 k = Some v) (keys (assignments self)) lists
    /\ concat lists ≡ₚ ["T1"; "T2"; "T3"]
    /\ length (concat lists) = 3
    /\ (forall t, count t ["T1"; "T2"; "T3"] = 1 ->
          exists k v,
            assigned self st2 k = Some v /\ count t v = 1
            /\ forall k' v', assigned self st2 k' = Some v' -> t ∈ v' -> k' = k).
Proof.
  apply (assign_teams_conserves 3 0 1 _ ["A"; "B"] ["T1"; "T2"; "T3"]);
    [reflexivity | reflexivity | cbn; lia | cbn; lia].
Defined.

(** The run up to a segment and the turn on it, for a constructed object. *)
Lemma constructed_turn fuel lp lt st ps ts :
  heap st !! lp = Some ps ->
  heap st !! lt = Some ts ->
  (ts ≠ [] -> 1 <= length ps) ->
  length ts <= fuel ->
  exists self st1 cs,
    post_init fuel lp lt st = Ok self st1
    /\ chunks fuel (length ps `min` length ts) ts = Some cs
    /\ keys (assignments self) = first_seen ps
    /\ wf self st1
    /\ heap st1 !! participants self = Some ps
    /\ Forall2 (fun l c => heap st1 !! l = Some c) (segmented_teams self) cs
    /\ (forall l, l ∈ (assignments self).*2 -> heap st1 !! l = Some [])
    /\ forall before segment after,
         segmented_teams self = before ++ segment :: after ->
         exists st2 st3 seg chosen,
           for_each before (assign_from_segments self) st1 = Ok tt st2
           /\ heap st2 !! segment = Some seg
           /\ cs !! length before = Some seg
           /\ wf self st2
           /\ assign_from_segments self segment st2 = Ok tt st3
           /\ draws st3 = draws st2 + length seg
           /\ length chosen = length seg
           /\ chosen ⊆+ ps
           /\ (forall k l old,
                 dict_lookup (assignments self) k = Some l ->
                 heap st2 !! l = Some old ->
                 heap st3 !! l = Some (old ++ received k chosen seg)).
Proof.
  intros Hp Ht HP Hfuel.
  destruct (construction fuel lp lt st ps ts Hp Ht) as
    (self & st1 & cs & Hrun & Hcs & Hlp & Hlt & _ & _ & Hp1 & Ht1 & Hsegs & Hkeys & Hempty & Hwf);
    [done..|].
  rewrite <- Hlp in Hp1.
  assert (Hlens : Forall (fun c => length c <= length ps) cs).
  { eapply Forall_impl; [by eapply chunks_length_le|]. cbn. intros; lia. }
  exists self, st1, cs. split_and!; try done.
  intros before segment after Hsplit.
  destruct (segment_turn self st1 ps cs before segment after Hwf Hp1 Hsegs Hlens Hsplit)
    as (st2 & st3 & seg & chosen & ? & ? & ? & ? & ? & ? & ? & ? & ? & ?).
  by exists st2, st3, seg, chosen.
Qed.

(** In a well-formed state every key has a list. *)
Lemma wf_assigned self st k :
  wf self st -> k ∈ keys (assignments self) ->
  exists l old, dict_lookup (assignments self) k = Some l /\ heap st !! l = Some old
               /\ assigned self st k = Some old.
Proof.
  intros Hwf Hk. destruct (dict_lookup_key _ _ Hk) as [l Hl].
  destruct (wf_alive _ _ Hwf l (dict_lookup_value _ _ _ Hl)) as [old Hold].
  exists l, old. by rewrite (assigned_lookup _ _ _ _ Hl).
Qed.

(** C3 (as amended): with at least one participant, every segment produced by
    segmentation gives to a name at most as many teams as the name occurs in
    the participants list; with pairwise distinct names, at most one. *)
Theorem segment_gives_at_most_one fuel lp lt st ps ts :
  heap st !! lp = Some ps ->
  heap st !! lt = Some ts ->
  1 <= length ps ->
  length ts <= fuel ->
  per_segment (fun k => count k ps) fuel lp lt st
  /\ (NoDup ps -> per_segment (fun _ => 1) fuel lp lt st).
Proof.
  intros Hp Ht HP Hfuel.
  destruct (constructed_turn fuel lp lt st ps ts Hp Ht (fun _ => HP) Hfuel)
    as (self & st1 & cs & Hrun & _ & _ & _ & _ & _ & _ & Hturn).
  assert (Hgen : forall bound,
    (forall k chosen seg, chosen ⊆+ ps -> length chosen = length seg ->
       length (received k chosen seg) <= bound k) ->
    per_segment bound fuel lp lt st).
  { intros bound Hbound. exists self, st1. split; [done|].
    intros before segment after Hsplit.
    destruct (Hturn before segment after Hsplit)
      as (st2 & st3 & seg & chosen & Hrun2 & Hseg & _ & Hwf2 & Hrun3 & _ & Hch & Hsub & Hrecv).
    exists st2, st3, seg. split_and!; try done.
    intros k Hk. destruct (wf_assigned _ _ _ Hwf2 Hk) as (l & old & Hl & Hold & Hass).
    exists old, (received k chosen seg). split_and!; try done.
    - rewrite (assigned_lookup _ _ _ _ Hl). by apply Hrecv.
    - apply received_sublist.
    - by apply Hbound. }
  split.
  - apply Hgen. intros k chosen seg. apply received_bound.
  - intros Hnd. apply Hgen. intros k chosen seg. by apply received_at_most_one.
Qed.

Lemma segment_gives_at_most_one_witness :
  let st := init_state (fun n => n) ["A"; "B"] ["T1"; "T2"; "T3"] in
  per_segment (fun k => count k ["A"; "B"]) 3 0 1 st
  /\ (NoDup ["A"; "B"] -> per_segment (fun _ => 1) 3 0 1 st).
Proof.
  apply (segment_gives_at_most_one 3 0 1 _ ["A"; "B"] ["T1"; "T2"; "T3"]);
    [reflexivity | reflexivity | cbn; lia | cbn; lia].
Defined.

(** C3 as stated fails: with participants [["A"; "A"]] and teams
    [["T1"; "T2"]] the one segment gives both teams to the key ["A"]. *)
Lemma segment_gives_two_to_repeated_name :
  ~ per_segment (fun _ => 1) 2 0 1 (init_state (fun _ => 0) ["A"; "A"] ["T1"; "T2"]).
Proof.
  intros (self & st1 & Hpost & Hsegs).
  vm_compute in Hpost. injection Hpost as <- <-.
  destruct (Hsegs [] 2 [] eq_refl) as (st2 & st3 & seg & Hrun2 & Hseg & Hrun3 & Hkeys).
  injection Hrun2 as <-.
  vm_compute in Hrun3. injection Hrun3 as <-.
  destruct (Hkeys "A") as (old & got & Hold & Hnew & _ & Hlen); [by left|].
  vm_compute in Hold. injection Hold as <-.
  vm_compute in Hnew. injection Hnew as <-.
  cbn in Hlen. lia.
Qed.

Lemma received_full_segments k ps : forall chosens cs,
  NoDup ps -> k ∈ ps ->
  Forall2 (fun ch c => length ch = length c /\ ch ⊆+ ps) chosens cs ->
  Forall (fun c => length c = length ps) cs ->
  length (concat (zip_with (received k) chosens cs)) = length cs.
Proof.
  intros chosens cs Hnd Hk H. induction H as [|ch c chosens cs [Hlen Hsub] _ IH]; [done|].
  intros [Hfull Hall]%Forall_cons. cbn [zip_with concat]. rewrite length_app, IH by done.
  destruct (received_exactly_one k ch c ps Hnd Hsub Hlen Hfull Hk) as (team & -> & _).
  done.
Qed.

(** C10: with pairwise distinct names, [assign_from_segments] on a segment as
    long as the participants list (a list of its own, in a well-formed state)
    gives every participant exactly one team of the segment; and when the
    number of teams is [m] times the number of participants, every
    participant ends with [m] teams. *)
Theorem full_segment_gives_one_each :
  (forall self st ps segment seg,
     wf self st ->
     heap st !! participants self = Some ps ->
     heap st !! segment = Some seg ->
     segment ∉ (assignments self).*2 ->
     NoDup ps ->
     length seg = length ps ->
     exists st',
       assign_from_segments self segment st = Ok tt st'
       /\ heap st' !! segment = Some seg
       /\ forall k, k ∈ ps ->
            exists old team,
              assigned self st k = Some old
              /\ assigned self st' k = Some (old ++ [team])
              /\ team ∈ seg)
  /\ (forall fuel lp lt st ps ts m,
        heap st !! lp = Some ps ->
        heap st !! lt = Some ts ->
        NoDup ps ->
        length ts <= fuel ->
        length ts = m * length ps ->
        exists self st1 st2,
          post_init fuel lp lt st = Ok self st1
          /\ assign_teams self st1 = Ok tt st2
          /\ forall k, k ∈ ps ->
               exists v, assigned self st2 k = Some v /\ length v = m).
Proof.
  split.
  - intros self st ps segment seg Hwf Hps Hseg Hown Hnd Hfull.
    destruct (assign_from_segments_run self st ps segment seg Hwf Hps Hseg)
      as (st' & chosen & rest & Hrun & _ & _ & Hch & Hperm & _ & _ & Hframe & Hrecv); [lia|].
    exists st'. split_and!; [done| |].
    { rewrite Hframe; [done|by eapply lookup_lt_Some|done]. }
    intros k Hk.
    destruct (wf_assigned _ _ _ Hwf (wf_keys _ _ Hwf _ _ Hps Hk)) as (l & old & Hl & Hold & Hass).
    assert (Hsub : chosen ⊆+ ps) by (rewrite <- Hperm; by apply submseteq_inserts_r).
    destruct (received_exactly_one k chosen seg ps Hnd Hsub Hch Hfull Hk) as (team & Hone & Hin).
    exists old, team. split_and!; try done.
    rewrite (assigned_lookup _ _ _ _ Hl), <- Hone. by apply Hrecv.
  - intros fuel lp lt st ps ts m Hp Ht Hnd Hfuel Hm.
    assert (HP : ts ≠ [] -> 1 <= length ps).
    { intros Hne. destruct ts; [done|]. destruct ps; [|cbn; lia].
      cbn in Hm. rewrite Nat.mul_0_r in Hm. done. }
    destruct (constructed_turn fuel lp lt st ps ts Hp Ht HP Hfuel)
      as (self & st1 & cs & Hrun & Hcs & Hkeys & Hwf & Hp1 & Hsegs & Hempty & _).
    assert (Hkey : forall k, k ∈ ps -> k ∈ keys (assignments self)).
    { intros k Hk. rewrite Hkeys. by apply first_seen_elem. }
    assert (Hlens : Forall (fun c => length c <= length ps) cs).
    { eapply Forall_impl; [by eapply chunks_length_le|]. cbn. intros; lia. }
    assert (Hout : Forall (fun l => l ∉ (assignments self).*2) (segmented_teams self)).
    { apply Forall_forall. intros l Hl Hin. by destruct (wf_apart _ _ Hwf _ Hin) as (_ & _ & ?). }
    destruct (assign_segments_run self ps _ cs st1 Hwf Hp1 Hsegs Hout Hlens)
      as (st2 & chosens & Hrun2 & _ & _ & Hchs & _ & _ & Hrecv & _).
    exists self, st1, st2. split_and!; [done..|]. intros k Hk.
    assert (1 <= length ps) as HP1 by (destruct ps; [by apply elem_of_nil in Hk|cbn; lia]).
    assert (Hfull : Forall (fun c => length c = length ps) cs /\ length cs = m).
    { destruct m as [|m].
      - destruct ts; [|done]. destruct fuel; cbn in Hcs; by simplify_eq.
      - assert (length ps `min` length ts = length ps) as Hmin by (rewrite Hm; cbn; lia).
        rewrite Hmin in Hcs. by eapply chunks_multiple. }
    destruct Hfull as [Hfull Hcount].
    destruct (wf_assigned _ _ _ Hwf (Hkey k Hk)) as (l & old & Hl & Hold & Hass).
    rewrite (Hempty l (dict_lookup_value _ _ _ Hl)) in Hold. injection Hold as <-.
    eexists. split.
    + rewrite (assigned_lookup _ _ _ _ Hl). apply (Hrecv k l []); [done|].
      by apply Hempty, (dict_lookup_value _ k).
    + cbn [app]. by rewrite (received_full_segments k ps).
Qed.

Lemma full_segment_gives_one_each_witness :
  (let self := mkSweepstake 0 1 [2; 3] [("A", 4); ("B", 5)] in
   let st := mkState [["A"; "B"]; ["T1"; "T2"; "T3"; "T4"]; ["T1"; "T2"]; ["T3"; "T4"]; []; []]
               (fun n => n) 0 in
   exists st',
     assign_from_segments self 2 st = Ok tt st'
     /\ heap st' !! 2 = Some ["T1"; "T2"]
     /\ forall k, k ∈ ["A"; "B"] ->
          exists old team,
            assigned self st k = Some old
            /\ assigned self st' k = Some (old ++ [team])
            /\ team ∈ ["T1"; "T2"])
  /\ (exists self st1 st2,
        post_init 4 0 1 (init_state (fun n => n) ["A"; "B"] ["T1"; "T2"; "T3"; "T4"])
        = Ok self st1
        /\ assign_teams self st1 = Ok tt st2
        /\ forall k, k ∈ ["A"; "B"] ->
             exists v, assigned self st2 k = Some v /\ length v = 2).
Proof.
  split.
  - apply (proj1 full_segment_gives_one_each
             (mkSweepstake 0 1 [2; 3] [("A", 4); ("B", 5)]) _ ["A"; "B"] 2 ["T1"; "T2"]);
      [by apply (bool_decide_unpack _) | reflexivity | reflexivity
      | by apply (bool_decide_unpack _) | by apply (bool_decide_unpack _) | reflexivity].
  - apply (proj2 full_segment_gives_one_each 4 0 1 _ ["A"; "B"] ["T1"; "T2"; "T3"; "T4"] 2);
      [reflexivity | reflexivity | by apply (bool_decide_unpack _) | cbn; lia | reflexivity].
Defined.

(** X1: whenever construction returns, the object it returns is well formed
    in the state it returns. *)
Lemma post_init_wf fuel lp lt st ps ts self st' :
  heap st !! lp = Some ps ->
  heap st !! lt = Some ts ->
  post_init fuel lp lt st = Ok self st' ->
  wf self st'.
Proof.
  intros Hp Ht Hrun. pose proof (post_init_run fuel lp lt st ps ts Hp Ht) as H.
  destruct (chunks fuel _ ts) as [cs|]; [|congruence].
  destruct H as (self0 & st0 & Hrun0 & _ & _ & _ & _ & _ & _ & _ & _ & Hwf).
  rewrite Hrun0 in Hrun. by injection Hrun as <- <-.
Qed.

Lemma post_init_wf_witness :
  wf (mkSweepstake 0 1 [2; 4] [("A", 6); ("B", 7)])
     (mkState [["A"; "B"]; ["T1"; "T2"; "T3"]; ["T1"; "T2"]; ["T3"]; ["T3"]; []; []; []]
        (fun n => n) 0).
Proof.
  apply (post_init_wf 3 0 1 (init_state (fun n => n) ["A"; "B"] ["T1"; "T2"; "T3"])
           ["A"; "B"] ["T1"; "T2"; "T3"]); reflexivity.
Defined.



(** C5: on a well-formed object, for a segment that is a list of its own (not
    one the dictionary holds) and no longer than the participants list,
    [assign_from_segments] returns after exactly [len(segment)] draws, leaves
    a pool of [P - len(segment)] names and the segment as it was; at the turn
    of every team of the segment the pool (the copy made on entry) is not
    empty, [random.choice] returns one of its names without [IndexError], and
    the turn takes one draw and one name out of the pool. *)
Theorem assign_from_segments_draws self st ps segment seg :
  wf self st ->
  heap st !! participants self = Some ps ->
  heap st !! segment = Some seg ->
  segment ∉ (assignments self).*2 ->
  length seg <= length ps ->
  exists pool st0 st' rest,
    list_copy (participants self) st = Ok pool st0
    /\ assign_from_segments self segment st = Ok tt st'
    /\ draws st' = draws st + length seg
    /\ heap st' !! pool = Some rest
    /\ length rest + length seg = length ps
    /\ heap st' !! segment = Some seg
    /\ forall pre team post,
         seg = pre ++ team :: post ->
         exists sta stb v v',
           for_each pre (assign_team self pool) st0 = Ok tt sta
           /\ heap sta !! pool = Some v
           /\ length v + length pre = length ps
           /\ v ≠ []
           /\ (exists p stc, random_choice pool sta = Ok p stc /\ p ∈ v)
           /\ assign_team self pool team sta = Ok tt stb
           /\ draws stb = S (draws sta)
           /\ heap stb !! pool = Some v'
           /\ S (length v') = length v.
Proof.
  intros Hwf Hps Hseg Hown Hlen.
  destruct (assign_from_segments_run self st ps segment seg Hwf Hps Hseg Hlen)
    as (st' & chosen & rest & Hrun & _ & Hdraws & Hch & Hperm & Hrest & _ & Hframe & _).
  set (pool := length (heap st)) in *.
  set (st0 := mkState (heap st ++ [ps]) (tape st) (draws st)).
  assert (Hcopy : list_copy (participants self) st = Ok pool st0).
  { unfold list_copy. by rewrite (bind_Ok _ _ _ _ _ (load_run _ _ _ Hps)). }
  assert (Hpool : pool ∉ (assignments self).*2).
  { intros [old Hold%lookup_lt_Some]%(wf_alive _ _ Hwf). subst pool. lia. }
  assert (Hv0 : heap st0 !! pool = Some ps) by apply lookup_alloc_new.
  assert (Halive0 : forall l, l ∈ (assignments self).*2 -> l < length (heap st0)).
  { intros l [old Hold%lookup_lt_Some]%(wf_alive _ _ Hwf).
    subst st0. cbn. rewrite length_app. lia. }
  exists pool, st0, st', rest. split_and!; try done.
  { apply Permutation_length in Hperm. rewrite length_app in Hperm. lia. }
  { rewrite Hframe; [done|by eapply lookup_lt_Some|done]. }
  intros pre team post ->. rewrite length_app in Hlen. cbn in Hlen.
  destruct (assign_loop_run self pool pre st0 ps (wf_nodup _ _ Hwf) Hpool Hv0)
    as (sta & chosen' & v & Hruna & _ & _ & Hch' & Hperm' & Hv & Hlena & _); [lia| | |].
  { intros p Hp. by eapply wf_keys. }
  { intros l Hl. apply lookup_lt_is_Some. by apply Halive0. }
  assert (Hvlen : length v + length pre = length ps).
  { apply Permutation_length in Hperm'. rewrite length_app in Hperm'. lia. }
  assert (Hne : v ≠ []) by (intros ->; cbn in Hvlen; lia).
  destruct (assign_team_run self pool sta v team Hpool Hv Hne)
    as (p & l & old & Hp & Hl & Hold & Hrunb).
  { intros q Hq. eapply wf_keys; [done..|].
    rewrite <- Hperm'. apply elem_of_app. by right. }
  { intros l Hl. apply lookup_lt_is_Some. rewrite Hlena. by apply Halive0. }
  assert (Hin : p ∈ v) by (apply list_elem_of_lookup; by eexists).
  destruct (random_choice_run pool sta v Hv Hne) as (p' & Hp' & Hchoice).
  set (stb := mkState _ _ _) in Hrunb.
  exists sta, stb, v, (remove_first p v). split_and!; try done.
  - eexists p', _. split; [done|]. apply list_elem_of_lookup. by eexists.
  - subst stb. cbn [heap]. apply list_lookup_insert_eq.
    rewrite length_insert. by eapply lookup_lt_Some.
  - by apply remove_first_length.
Qed.

Lemma assign_from_segments_draws_witness :
  let self := mkSweepstake 0 1 [2; 4] [("A", 6); ("B", 7)] in
  let st := mkState [["A"; "B"]; ["T1"; "T2"; "T3"]; ["T1"; "T2"]; ["T3"]; ["T3"]; []; []; []]
              (fun n => n) 0 in
  exists pool st0 st' rest,
    list_copy (participants self) st = Ok pool st0
    /\ assign_from_segments self 2 st = Ok tt st'
    /\ draws st' = draws st + 2
    /\ heap st' !! pool = Some rest
    /\ length rest + 2 = 2
    /\ heap st' !! 2 = Some ["T1"; "T2"]
    /\ forall pre team post,
         ["T1"; "T2"] = pre ++ team :: post ->
         exists sta stb v v',
           for_each pre (assign_team self pool) st0 = Ok tt sta
           /\ heap sta !! pool = Some v
           /\ length v + length pre = 2
           /\ v ≠ []
           /\ (exists p stc, random_choice pool sta = Ok p stc /\ p ∈ v)
           /\ assign_team self pool team sta = Ok tt stb
           /\ draws stb = S (draws sta)
           /\ heap stb !! pool = Some v'
           /\ S (length v') = length v.
Proof.
  apply (assign_from_segments_draws (mkSweepstake 0 1 [2; 4] [("A", 6); ("B", 7)]) _
           ["A"; "B"] 2 ["T1"; "T2"]);
    [by apply (bool_decide_unpack _) | reflexivity | reflexivity
    | by apply (bool_decide_unpack _) | cbn; lia].
Defined.

Lemma received_blocks k ps : forall chosens segs,
  Forall2 (fun ch c => length ch = length c /\ ch ⊆+ ps) chosens segs ->
  Forall2 sublist (zip_with (received k) chosens segs) segs.
Proof.
  intros chosens segs H. induction H as [|ch c chosens segs _ _ IH]; [constructor|].
  cbn. constructor; [apply received_sublist|done].
Qed.

(** C6: with at least one participant, the final list of every key is the
    concatenation of one block per segment, in the order in which the
    segments are processed; the block of a segment holds teams of that
    segment only, and once the first [i] segments are processed the list of
    the key is its first [i] blocks.  So whatever a key gets from an earlier
    segment stands before whatever it gets from a later one. *)
Theorem assignments_keep_segment_order fuel lp lt st ps ts :
  heap st !! lp = Some ps ->
  heap st !! lt = Some ts ->
  1 <= length ps ->
  length ts <= fuel ->
  exists self st1 st2 segs,
    post_init fuel lp lt st = Ok self st1
    /\ deref st1 (segmented_teams self) = Some segs
    /\ assign_teams self st1 = Ok tt st2
    /\ forall k, k ∈ keys (assignments self) ->
         exists gots,
           assigned self st2 k = Some (concat gots)
           /\ Forall2 sublist gots segs
           /\ forall i, exists sti,
                for_each (take i (segmented_teams self)) (assign_from_segments self) st1
                = Ok tt sti
                /\ assigned self sti k = Some (concat (take i gots)).
Proof.
  intros Hp Ht HP Hfuel.
  destruct (constructed_turn fuel lp lt st ps ts Hp Ht (fun _ => HP) Hfuel)
    as (self & st1 & cs & Hrun & Hcs & Hkeys & Hwf & Hp1 & Hsegs & Hempty & _).
  assert (Hlens : Forall (fun c => length c <= length ps) cs).
  { eapply Forall_impl; [by eapply chunks_length_le|]. cbn. intros; lia. }
  assert (Hout : Forall (fun l => l ∉ (assignments self).*2) (segmented_teams self)).
  { apply Forall_forall. intros l Hl Hin. by destruct (wf_apart _ _ Hwf _ Hin) as (_ & _ & ?). }
  destruct (assign_segments_run self ps _ cs st1 Hwf Hp1 Hsegs Hout Hlens)
    as (st2 & chosens & Hrun2 & _ & _ & Hchs & _ & _ & Hrecv & Hpre & _).
  exists self, st1, st2, cs. split_and!; try done.
  { by apply mapM_Some_2. }
  intros k Hk. destruct (wf_assigned _ _ _ Hwf Hk) as (l & old & Hl & Hold & _).
  rewrite (Hempty l (dict_lookup_value _ _ _ Hl)) in Hold. injection Hold as <-.
  exists (zip_with (received k) chosens cs). split_and!.
  - rewrite (assigned_lookup _ _ _ _ Hl). apply (Hrecv k l []); [done|].
    by apply Hempty, (dict_lookup_value _ k).
  - by eapply received_blocks.
  - intros i. destruct (Hpre i) as (sti & Hruni & Hreci). exists sti. split; [done|].
    rewrite (assigned_lookup _ _ _ _ Hl). apply (Hreci k l []); [done|].
    by apply Hempty, (dict_lookup_value _ k).
Qed.

Lemma assignments_keep_segment_order_witness :
  exists self st1 st2 segs,
    post_init 3 0 1 (init_state (fun n => n) ["A"; "B"] ["T1"; "T2"; "T3"]) = Ok self st1
    /\ deref st1 (segmented_teams self) = Some segs
    /\ assign_teams self st1 = Ok tt st2
    /\ forall k, k ∈ keys (assignments self) ->
         exists gots,
           assigned self st2 k = Some (concat gots)
           /\ Forall2 sublist gots segs
           /\ forall i, exists sti,
                for_each (take i (segmented_teams self)) (assign_from_segments self) st1
                = Ok tt sti
                /\ assigned self sti k = Some (concat (take i gots)).
Proof.
  apply (assignments_keep_segment_order 3 0 1 _ ["A"; "B"] ["T1"; "T2"; "T3"]);
    [reflexivity | reflexivity | cbn; lia | cbn; lia].
Defined.

(** C9: with at least one participant, [assign_teams] returns and leaves the
    participants list, the teams list and every segment as they were; of the
    lists that existed before, it changes none but those held by the
    dictionary (the names it removes, it removes from copies it makes). *)
Theorem assign_teams_frame fuel lp lt st ps ts :
  heap st !! lp = Some ps ->
  heap st !! lt = Some ts ->
  1 <= length ps ->
  length ts <= fuel ->
  exists self st1 st2 segs,
    post_init fuel lp lt st = Ok self st1
    /\ heap st1 !! participants self = Some ps
    /\ heap st1 !! teams self = Some ts
    /\ deref st1 (segmented_teams self) = Some segs
    /\ assign_teams self st1 = Ok tt st2
    /\ heap st2 !! participants self = Some ps
    /\ heap st2 !! teams self = Some ts
    /\ deref st2 (segmented_teams self) = Some segs
    /\ (forall l, l < length (heap st1) -> l ∉ (assignments self).*2 ->
          heap st2 !! l = heap st1 !! l).
Proof.
  intros Hp Ht HP Hfuel.
  destruct (construction fuel lp lt st ps ts Hp Ht) as
    (self & st1 & cs & Hrun & Hcs & Hlp & Hlt & _ & _ & Hp1 & Ht1 & Hsegs & Hkeys & Hempty & Hwf);
    [done..|].
  rewrite <- Hlp in Hp1. rewrite <- Hlt in Ht1.
  assert (Hlens : Forall (fun c => length c <= length ps) cs).
  { eapply Forall_impl; [by eapply chunks_length_le|]. cbn. intros; lia. }
  assert (Hout : Forall (fun l => l ∉ (assignments self).*2) (segmented_teams self)).
  { apply Forall_forall. intros l Hl Hin. by destruct (wf_apart _ _ Hwf _ Hin) as (_ & _ & ?). }
  destruct (assign_segments_run self ps _ cs st1 Hwf Hp1 Hsegs Hout Hlens)
    as (st2 & chosens & Hrun2 & _ & _ & _ & _ & Hframe & _).
  exists self, st1, st2, cs. split_and!; try done.
  - by apply mapM_Some_2.
  - rewrite Hframe; [done|by eapply lookup_lt_Some|].
    intros Hin. by destruct (wf_apart _ _ Hwf _ Hin).
  - rewrite Hframe; [done|by eapply lookup_lt_Some|].
    intros Hin. by destruct (wf_apart _ _ Hwf _ Hin) as (_ & ? & _).
  - apply mapM_Some_2. clear -Hsegs Hout Hframe.
    induction Hsegs as [|l c ls cs Hl _ IH]; [constructor|].
    apply Forall_cons in Hout as [Hl' Hout]. constructor; [|by apply IH].
    rewrite Hframe; [done|by eapply lookup_lt_Some|done].
Qed.

Lemma assign_teams_frame_witness :
  exists self st1 st2 segs,
    post_init 3 0 1 (init_state (fun n => n) ["A"; "B"] ["T1"; "T2"; "T3"]) = Ok self st1
    /\ heap st1 !! participants self = Some ["A"; "B"]
    /\ heap st1 !! teams self = Some ["T1"; "T2"; "T3"]
    /\ deref st1 (segmented_teams self) = Some segs
    /\ assign_teams self st1 = Ok tt st2
    /\ heap st2 !! participants self = Some ["A"; "B"]
    /\ heap st2 !! teams self = Some ["T1"; "T2"; "T3"]
    /\ deref st2 (segmented_teams self) = Some segs
    /\ (forall l, l < length (heap st1) -> l ∉ (assignments self).*2 ->
          heap st2 !! l = heap st1 !! l).
Proof.
  apply (assign_teams_frame 3 0 1 _ ["A"; "B"] ["T1"; "T2"; "T3"]);
    [reflexivity | reflexivity | cbn; lia | cbn; lia].
Defined.

(** * Runs on concrete inputs *)

(** The scenario of the specification: two participants, three teams. *)
Example run_two_participants_three_teams :
  let st0 := init_state (fun n => n) ["A"; "B"] ["T1"; "T2"; "T3"] in
  match (self ← post_init 3 0 1; assign_teams self;; mret self) st0 with
  | Ok self st =>
      deref st (segmented_teams self) = Some [["T1"; "T2"]; ["T3"]]
      /\ assigned self st "A" = Some ["T1"; "T3"]
      /\ assigned self st "B" = Some ["T2"]
      /\ draws st = 3
  | _ => False
  end.
Proof. vm_compute. done. Qed.

(** A repeated name is one key; its list takes what every occurrence draws. *)
Example run_repeated_name :
  let st0 := init_state (fun _ => 0) ["A"; "B"; "A"] ["T1"; "T2"; "T3"; "T4"] in
  match (self ← post_init 4 0 1; assign_teams self;; mret self) st0 with
  | Ok self st =>
      keys (assignments self) = ["A"; "B"]
      /\ assigned self st "A" = Some ["T1"; "T3"; "T4"]
      /\ assigned self st "B" = Some ["T2"]
  | _ => False
  end.
Proof. vm_compute. done. Qed.

Example first_seen_example :
  first_seen ["B"; "A"; "B"; "C"; "A"] = ["B"; "A"; "C"].
Proof. reflexivity. Qed.

(** A fourth draw from a pool of three names raises [IndexError]: the bound
    on the length of a segment is what keeps the pool from running dry. *)
Example run_segment_too_long :
  let self := mkSweepstake 0 1 [1] [("A", 2); ("B", 3); ("C", 4)] in
  let st := mkState [["A"; "B"; "C"]; ["T1"; "T2"; "T3"; "T4"]; []; []; []] (fun _ => 0) 0 in
  assign_from_segments self 1 st = Raise IndexError.
Proof. reflexivity. Qed.


(** * Reading the files *)

Lemma split_lines_nonempty text : split_lines text ≠ [].
Proof.
  destruct text as [|c text]; cbn; [done|].
  destruct (decide (c = newline)); [done|]. by destruct (split_lines text).
Qed.

Lemma split_lines_length text : length (split_lines text) = S (newlines text).
Proof.
  induction text as [|c text IH]; cbn; [done|].
  destruct (decide (c = newline)); cbn; [by rewrite IH|].
  pose proof (split_lines_nonempty text). by destruct (split_lines text).
Qed.

Lemma split_lines_no_newline text :
  Forall (fun line => newlines line = 0) (split_lines text).
Proof.
  induction text as [|c text IH]; cbn; [by repeat constructor|].
  destruct (decide (c = newline)) as [|Hc]; [by constructor|].
  destruct (split_lines text) as [|line lines].
  - repeat constructor. cbn [newlines]. by rewrite decide_False.
  - apply Forall_cons in IH as [Hline Hlines]. constructor; [|done].
    cbn [newlines]. by rewrite decide_False.
Qed.

Lemma join_split_lines text : join_lines (split_lines text) = text.
Proof.
  induction text as [|c text IH]; cbn; [done|].
  pose proof (split_lines_nonempty text) as Hne.
  destruct (decide (c = newline)) as [->|Hc].
  - destruct (split_lines text) as [|line lines]; [done|]. cbn [join_lines] in *.
    cbn. by rewrite IH.
  - destruct (split_lines text) as [|line lines]; [done|]. cbn [join_lines] in *.
    destruct lines; cbn; by rewrite <- IH.
Qed.


(** Splitting two texts joined by a newline gives the lines of the first and
    then the lines of the second. *)
Lemma split_lines_app a b :
  split_lines (a +:+ String newline b) = split_lines a ++ split_lines b.
Proof.
  induction a as [|c a IH].
  - change (split_lines (String newline b) = [EmptyString] ++ split_lines b).
    cbn [split_lines]. by rewrite decide_True.
  - change (split_lines (String c (a +:+ String newline b))
            = split_lines (String c a) ++ split_lines b).
    cbn [split_lines]. rewrite IH. destruct (decide (c = newline)); [done|].
    pose proof (split_lines_nonempty a). by destruct (split_lines a).
Qed.


(** X3: [read_file] returns a new list and changes no list that exists; the
    list is never empty, it has one entry more than the text has newlines, no
    entry contains a newline, the entries joined by newlines are the text, and
    a text that ends with a newline gives a last entry that is empty. *)
Theorem read_file_lines :
  forall fs file_name st,
  exists l st' lines,
    read_file fs file_name st = Ok l st'
    /\ heap st !! l = None
    /\ heap st' !! l = Some lines
    /\ (forall l' v, heap st !! l' = Some v -> heap st' !! l' = Some v)
    /\ draws st' = draws st
    /\ length lines = S (newlines (fs file_name))
    /\ Forall (fun line => newlines line = 0) lines
    /\ join_lines lines = fs file_name
    /\ (forall text, fs file_name = text +:+ String newline EmptyString ->
          last lines = Some EmptyString).
Proof.
  intros fs file_name st.
  exists (length (heap st)), (mkState (heap st ++ [split_lines (fs file_name)]) (tape st) (draws st)),
    (split_lines (fs file_name)).
  split_and!; try done.
  - by apply lookup_ge_None_2.
  - apply lookup_alloc_new.
  - intros l' v Hv. by apply lookup_alloc_old.
  - apply split_lines_length.
  - apply split_lines_no_newline.
  - apply join_split_lines.
  - intros text ->. rewrite split_lines_app. cbn. apply last_snoc.
Qed.



(** * More on segmentation *)

(** X5: [take_segment] builds two new lists, the first [min(P, N)] remaining
    teams (all of them when fewer remain) and the rest; together they are the
    remaining teams.  It changes no list that exists and draws nothing. *)
Theorem take_segment_splits self st ps ts remaining rem :
  heap st !! participants self = Some ps ->
  heap st !! teams self = Some ts ->
  heap st !! remaining = Some rem ->
  exists a b st' seg rest,
    take_segment self remaining st = Ok (a, b) st'
    /\ heap st' !! a = Some seg
    /\ heap st' !! b = Some rest
    /\ seg ++ rest = rem
    /\ length seg = (length ps `min` length ts) `min` length rem
    /\ a ≠ b
    /\ heap st !! a = None
    /\ heap st !! b = None
    /\ (forall l v, heap st !! l = Some v -> heap st' !! l = Some v)
    /\ draws st' = draws st.
Proof.
  intros Hp Ht Hr. set (k := length ps `min` length ts).
  exists (length (heap st)), (S (length (heap st))),
    (mkState (heap st ++ [take k rem; drop k rem]) (tape st) (draws st)),
    (take k rem), (drop k rem).
  split_and!.
  - by apply take_segment_run.
  - apply lookup_alloc_new.
  - cbn [heap]. rewrite lookup_app_r by lia.
    by replace (S (length (heap st)) - length (heap st)) with 1 by lia.
  - apply take_drop.
  - apply length_take.
  - lia.
  - by apply lookup_ge_None_2.
  - apply lookup_ge_None_2. lia.
  - intros l v Hl. by apply lookup_alloc_old.
  - done.
Qed.

Lemma take_segment_splits_witness :
  let self := mkSweepstake 0 1 [] [] in
  let st := init_state (fun _ => 0) ["A"; "B"] ["T1"; "T2"; "T3"] in
  exists a b st' seg rest,
    take_segment self 1 st = Ok (a, b) st'
    /\ heap st' !! a = Some seg
    /\ heap st' !! b = Some rest
    /\ seg ++ rest = ["T1"; "T2"; "T3"]
    /\ length seg = (2 `min` 3) `min` 3
    /\ a ≠ b
    /\ heap st !! a = None
    /\ heap st !! b = None
    /\ (forall l v, heap st !! l = Some v -> heap st' !! l = Some v)
    /\ draws st' = draws st.
Proof.
  apply (take_segment_splits (mkSweepstake 0 1 [] []) _ ["A"; "B"] ["T1"; "T2"; "T3"] 1
           ["T1"; "T2"; "T3"]); reflexivity.
Defined.

Lemma chunks_count fuel : forall k l cs,
  1 <= k -> chunks fuel k l = Some cs -> length cs = (length l + k - 1) / k.
Proof.
  induction fuel as [|fuel IH]; intros k [|t l] cs Hk H; cbn in H; simplify_eq.
  - cbn. symmetry. apply Nat.div_small. lia.
  - cbn. symmetry. apply Nat.div_small. lia.
  - destruct (chunks fuel k (drop k (t :: l))) as [cs'|] eqn:E; cbn in H; simplify_eq.
    cbn [length]. rewrite (IH k _ cs' Hk E), length_drop. cbn [length].
    set (n := S (length l)).
    replace (n + k - 1) with (n - 1 + 1 * k) by lia.
    rewrite Nat.div_add by lia.
    destruct (decide (k <= n)).
    + replace (n - k + k - 1) with (n - 1) by lia. lia.
    + rewrite !Nat.div_small by lia. lia.
Qed.

Lemma chunks_full_count fuel : forall k l cs,
  1 <= k -> chunks fuel k l = Some cs ->
  length l / k <= length (filter (fun c => length c = k) cs).
Proof.
  induction fuel as [|fuel IH]; intros k [|t l] cs Hk H; cbn in H; simplify_eq.
  - cbn. rewrite Nat.div_small by lia. lia.
  - cbn. rewrite Nat.div_small by lia. lia.
  - destruct (chunks fuel k (drop k (t :: l))) as [cs'|] eqn:E; cbn in H; simplify_eq.
    pose proof (IH k _ cs' Hk E) as Hle. rewrite length_drop in Hle.
    set (n := length (t :: l)) in *.
    destruct (decide (k <= n)).
    + rewrite filter_cons_True by (rewrite length_take; fold n; lia).
      cbn [length]. replace n with (n - k + 1 * k) at 1 by lia.
      rewrite Nat.div_add by lia. lia.
    + rewrite Nat.div_small by lia. lia.
Qed.

(** X6: with [P >= 1] participants and [N] teams, [segment_teams] returns
    the quotient of [N] by [P], rounded up, many segments. *)
Theorem segment_teams_count self st ps ts fuel :
  heap st !! participants self = Some ps ->
  heap st !! teams self = Some ts ->
  1 <= length ps ->
  length ts <= fuel ->
  exists ls st',
    segment_teams fuel self st = Ok ls st'
    /\ length ls = (length ts + length ps - 1) / length ps.
Proof.
  intros Hp Ht HP Hfuel.
  destruct (chunks_tiles fuel (length ps `min` length ts) ts) as (cs & Hcs & _); [|done|].
  { intros H. destruct ts; [done|]. cbn [length]. lia. }
  pose proof (segment_loop_run fuel self [] (teams self) st ps ts ts Hp Ht Ht) as H.
  rewrite Hcs in H. destruct H as (ls & st' & Hrun & _ & _ & _ & Hls & _).
  exists ls, st'. split; [done|]. rewrite (Forall2_length _ _ _ Hls).
  destruct ts as [|t ts].
  - assert (cs = []) as -> by (destruct fuel; cbn in Hcs; congruence).
    cbn. symmetry. apply Nat.div_small. lia.
  - assert (1 <= length ps `min` length (t :: ts)) as Hk by (cbn [length]; lia).
    rewrite (chunks_count _ _ _ _ Hk Hcs). clear Hk.
    set (n := length (t :: ts)) in *. assert (1 <= n) by (subst n; cbn; lia).
    destruct (decide (length ps <= n)).
    + by replace (length ps `min` n) with (length ps) by lia.
    + replace (length ps `min` n) with n by lia.
      replace (n + n - 1) with (n - 1 + 1 * n) by lia.
      replace (n + length ps - 1) with (n - 1 + 1 * length ps) by lia.
      rewrite !Nat.div_add, !Nat.div_small by lia. done.
Qed.

Lemma segment_teams_count_witness :
  exists ls st',
    segment_teams 7 (mkSweepstake 0 1 [] [])
      (init_state (fun _ => 0) ["A"; "B"; "C"] ["T1"; "T2"; "T3"; "T4"; "T5"; "T6"; "T7"])
    = Ok ls st'
    /\ length ls = (7 + 3 - 1) / 3.
Proof.
  apply (segment_teams_count (mkSweepstake 0 1 [] []) _ ["A"; "B"; "C"]
           ["T1"; "T2"; "T3"; "T4"; "T5"; "T6"; "T7"] 7);
    [reflexivity | reflexivity | cbn; lia | cbn; lia].
Defined.

(** X7: whenever [segment_teams] returns, the segments are new lists, pairwise
    distinct objects; no list that existed is changed, and nothing is drawn. *)
Theorem segment_teams_allocates_only fuel self st ps ts ls st' :
  heap st !! participants self = Some ps ->
  heap st !! teams self = Some ts ->
  segment_teams fuel self st = Ok ls st' ->
  NoDup ls
  /\ Forall (fun l => heap st !! l = None /\ is_Some (heap st' !! l)) ls
  /\ (forall l v, heap st !! l = Some v -> heap st' !! l = Some v)
  /\ draws st' = draws st
  /\ tape st' = tape st.
Proof.
  intros Hp Ht Hrun. unfold segment_teams in Hrun.
  pose proof (segment_loop_run fuel self [] (teams self) st ps ts ts Hp Ht Ht) as H.
  destruct (chunks fuel _ ts) as [cs|]; [|congruence].
  destruct H as (ls0 & st0 & Hrun0 & Htape & Hdraws & Hpre & Hls & Hge & Hnd).
  rewrite Hrun0 in Hrun. injection Hrun as <- <-. cbn [app].
  split_and!; try done.
  - apply Forall_forall. intros l Hl. split.
    + rewrite Forall_forall in Hge. apply lookup_ge_None_2. by apply Hge.
    + destruct (list_elem_of_lookup_1 _ _ Hl) as [i Hi].
      destruct (Forall2_lookup_l _ _ _ _ _ Hls Hi) as (c & _ & Hc). by eexists.
  - intros l v Hl. by eapply prefix_lookup_Some.
Qed.

Lemma segment_teams_allocates_only_witness :
  let st := init_state (fun _ => 0) ["A"; "B"] ["T1"; "T2"; "T3"] in
  let st' := mkState [["A"; "B"]; ["T1"; "T2"; "T3"]; ["T1"; "T2"]; ["T3"]; ["T3"]; []]
               (fun _ => 0) 0 in
  NoDup [2; 4]
  /\ Forall (fun l => heap st !! l = None /\ is_Some (heap st' !! l)) [2; 4]
  /\ (forall l v, heap st !! l = Some v -> heap st' !! l = Some v)
  /\ draws st' = draws st
  /\ tape st' = tape st.
Proof.
  apply (segment_teams_allocates_only 3 (mkSweepstake 0 1 [] []) _ ["A"; "B"]
           ["T1"; "T2"; "T3"]); reflexivity.
Defined.

(** * More on the assignment *)

(** Construction followed by [assign_teams], with what both leave behind. *)
Lemma constructed_run fuel lp lt st ps ts :
  heap st !! lp = Some ps ->
  heap st !! lt = Some ts ->
  (ts ≠ [] -> 1 <= length ps) ->
  length ts <= fuel ->
  exists self st1 cs st2 chosens,
    post_init fuel lp lt st = Ok self st1
    /\ chunks fuel (length ps `min` length ts) ts = Some cs
    /\ concat cs = ts
    /\ keys (assignments self) = first_seen ps
    /\ wf self st1
    /\ heap st1 !! participants self = Some ps
    /\ Forall2 (fun l c => heap st1 !! l = Some c) (segmented_teams self) cs
    /\ (forall l, l ∈ (assignments self).*2 -> heap st1 !! l = Some [])
    /\ tape st1 = tape st /\ draws st1 = draws st
    /\ assign_teams self st1 = Ok tt st2
    /\ tape st2 = tape st /\ draws st2 = draws st + length ts
    /\ Forall2 (fun ch c => length ch = length c /\ ch ⊆+ ps) chosens cs
    /\ (forall l, l < length (heap st1) -> l ∉ (assignments self).*2 ->
          heap st2 !! l = heap st1 !! l)
    /\ (forall k l, dict_lookup (assignments self) k = Some l ->
          heap st2 !! l = Some (concat (zip_with (received k) chosens cs)))
    /\ wf self st2.
Proof.
  intros Hp Ht HP Hfuel.
  destruct (construction fuel lp lt st ps ts Hp Ht HP Hfuel) as
    (self & st1 & cs & Hrun & Hcs & Hlp & Hlt & Htape & Hdraws & Hp1 & Ht1 & Hsegs
     & Hkeys & Hempty & Hwf).
  destruct (chunks_tiles fuel (length ps `min` length ts) ts) as (cs' & Hcs' & Hcat & _); [|done|].
  { intros H. specialize (HP H). destruct ts; [done|]. cbn [length]. lia. }
  assert (cs' = cs) as -> by congruence.
  rewrite <- Hlp in Hp1.
  assert (Hlens : Forall (fun c => length c <= length ps) cs).
  { eapply Forall_impl; [by eapply chunks_length_le|]. cbn. intros; lia. }
  assert (Hout : Forall (fun l => l ∉ (assignments self).*2) (segmented_teams self)).
  { apply Forall_forall. intros l Hl Hin. by destruct (wf_apart _ _ Hwf _ Hin) as (_ & _ & ?). }
  destruct (assign_segments_run self ps _ cs st1 Hwf Hp1 Hsegs Hout Hlens)
    as (st2 & chosens & Hrun2 & Htape2 & Hdraws2 & Hchs & _ & Hframe & Hrecv & _ & Hwf2).
  assert (Hd : draws st2 = draws st + length ts) by (rewrite Hdraws2, Hcat; lia).
  assert (Hfinal : forall k l, dict_lookup (assignments self) k = Some l ->
            heap st2 !! l = Some (concat (zip_with (received k) chosens cs))).
  { intros k l Hl. apply (Hrecv k l []); [done|].
    by apply Hempty, (dict_lookup_value _ k). }
  exists self, st1, cs, st2, chosens. split_and!; try done; congruence.
Qed.

(** X8: on a well-formed object, a segment longer than the participants list
    makes [assign_from_segments] raise [IndexError]: the pool is empty when
    the turn of team number [P + 1] comes. *)
Theorem assign_from_segments_too_long self st ps segment seg :
  wf self st ->
  heap st !! participants self = Some ps ->
  heap st !! segment = Some seg ->
  segment ∉ (assignments self).*2 ->
  length ps < length seg ->
  assign_from_segments self segment st = Raise IndexError.
Proof.
  intros Hwf Hps Hseg _ Hlen. unfold assign_from_segments, list_copy.
  rewrite bind_run, (bind_Ok _ _ _ _ _ (load_run _ _ _ Hps)). unfold alloc.
  set (pool := length (heap st)). set (st1 := mkState _ _ _).
  assert (Hseg1 : heap st1 !! segment = Some seg) by by apply lookup_alloc_old.
  rewrite (bind_Ok _ _ _ _ _ (load_run _ _ _ Hseg1)).
  assert (Hpool : pool ∉ (assignments self).*2).
  { intros [old Hold%lookup_lt_Some]%(wf_alive _ _ Hwf). subst pool. lia. }
  rewrite <- (take_drop (length ps) seg).
  destruct (assign_loop_run self pool (take (length ps) seg) st1 ps (wf_nodup _ _ Hwf) Hpool)
    as (sta & chosen & v & Hrun & _ & _ & Hch & Hperm & Hv & _).
  - apply lookup_alloc_new.
  - rewrite length_take. lia.
  - intros p Hp. by eapply wf_keys.
  - intros l [old Hold]%(wf_alive _ _ Hwf). exists old. by apply lookup_alloc_old.
  - rewrite (for_each_app _ _ _ _ _ Hrun).
    assert (v = []) as ->.
    { apply Permutation_length in Hperm. rewrite length_app, Hch, length_take in Hperm.
      destruct v; [done|]. cbn in Hperm. lia. }
    destruct (drop (length ps) seg) as [|team post] eqn:E.
    { apply (f_equal length) in E. rewrite length_drop in E. cbn in E. lia. }
    cbn [for_each]. rewrite bind_run. unfold assign_team, random_choice.
    by rewrite bind_run, bind_run, (load_run _ _ _ Hv).
Qed.

Lemma assign_from_segments_too_long_witness :
  let self := mkSweepstake 0 1 [1] [("A", 2); ("B", 3); ("C", 4)] in
  let st := mkState [["A"; "B"; "C"]; ["T1"; "T2"; "T3"; "T4"]; []; []; []] (fun _ => 0) 0 in
  assign_from_segments self 1 st = Raise IndexError.
Proof.
  apply (assign_from_segments_too_long
           (mkSweepstake 0 1 [1] [("A", 2); ("B", 3); ("C", 4)]) _
           ["A"; "B"; "C"] 1 ["T1"; "T2"; "T3"; "T4"]);
    [by apply (bool_decide_unpack _) | reflexivity | reflexivity
    | by apply (bool_decide_unpack _) | cbn; lia].
Defined.

(** X9: with at least one participant, construction takes no draw and
    [assign_teams] takes exactly one draw per team, [N] in all. *)
Theorem assign_teams_draws fuel lp lt st ps ts :
  heap st !! lp = Some ps ->
  heap st !! lt = Some ts ->
  1 <= length ps ->
  length ts <= fuel ->
  exists self st1 st2,
    post_init fuel lp lt st = Ok self st1
    /\ draws st1 = draws st
    /\ assign_teams self st1 = Ok tt st2
    /\ draws st2 = draws st + length ts
    /\ tape st2 = tape st.
Proof.
  intros Hp Ht HP Hfuel.
  destruct (constructed_run fuel lp lt st ps ts Hp Ht (fun _ => HP) Hfuel)
    as (self & st1 & cs & st2 & chosens & ? & _ & _ & _ & _ & _ & _ & _ & _ & ? & ? & ? & ? & _).
  by exists self, st1, st2.
Qed.

Lemma assign_teams_draws_witness :
  let st := init_state (fun n => n) ["A"; "B"] ["T1"; "T2"; "T3"] in
  exists self st1 st2,
    post_init 3 0 1 st = Ok self st1
    /\ draws st1 = draws st
    /\ assign_teams self st1 = Ok tt st2
    /\ draws st2 = draws st + 3
    /\ tape st2 = tape st.
Proof.
  apply (assign_teams_draws 3 0 1 _ ["A"; "B"] ["T1"; "T2"; "T3"]);
    [reflexivity | reflexivity | cbn; lia | cbn; lia].
Defined.

Lemma sublist_concat (gots segs : list (list string)) :
  Forall2 sublist gots segs -> concat gots `sublist_of` concat segs.
Proof.
  induction 1 as [|g c gots segs Hg _ IH]; [done|]. cbn. by apply sublist_app.
Qed.

(** X10: every participant's final list is a subsequence of the teams: a
    participant's teams stand in ranking order. *)
Theorem assigned_in_ranking_order fuel lp lt st ps ts :
  heap st !! lp = Some ps ->
  heap st !! lt = Some ts ->
  1 <= length ps ->
  length ts <= fuel ->
  exists self st1 st2,
    post_init fuel lp lt st = Ok self st1
    /\ assign_teams self st1 = Ok tt st2
    /\ forall p, p ∈ ps ->
         exists v, assigned self st2 p = Some v /\ v `sublist_of` ts.
Proof.
  intros Hp Ht HP Hfuel.
  destruct (constructed_run fuel lp lt st ps ts Hp Ht (fun _ => HP) Hfuel)
    as (self & st1 & cs & st2 & chosens & Hrun & _ & Hcat & Hkeys & _ & _ & _ & _ & _ & _
        & Hrun2 & _ & _ & Hchs & _ & Hfinal & _).
  exists self, st1, st2. split_and!; [done..|]. intros p Hin.
  assert (p ∈ keys (assignments self)) as Hk by (rewrite Hkeys; by apply first_seen_elem).
  destruct (dict_lookup_key _ _ Hk) as [l Hl].
  eexists. split; [rewrite (assigned_lookup _ _ _ _ Hl); by apply Hfinal|].
  rewrite <- Hcat. apply sublist_concat. by eapply received_blocks.
Qed.

Lemma assigned_in_ranking_order_witness :
  exists self st1 st2,
    post_init 3 0 1 (init_state (fun n => n) ["A"; "B"] ["T1"; "T2"; "T3"]) = Ok self st1
    /\ assign_teams self st1 = Ok tt st2
    /\ forall p, p ∈ ["A"; "B"] ->
         exists v, assigned self st2 p = Some v /\ v `sublist_of` ["T1"; "T2"; "T3"].
Proof.
  apply (assigned_in_ranking_order 3 0 1 _ ["A"; "B"] ["T1"; "T2"; "T3"]);
    [reflexivity | reflexivity | cbn; lia | cbn; lia].
Defined.

Lemma received_sum_bounds k ps : forall chosens cs,
  NoDup ps -> k ∈ ps ->
  Forall2 (fun ch c => length ch = length c /\ ch ⊆+ ps) chosens cs ->
  length (filter (fun c => length c = length ps) cs)
  <= length (concat (zip_with (received k) chosens cs))
  <= length cs.
Proof.
  intros chosens cs Hnd Hk H. induction H as [|ch c chosens cs [Hlen Hsub] _ IH]; [cbn; lia|].
  cbn [zip_with concat length]. rewrite length_app.
  pose proof (received_at_most_one k ch c ps Hnd Hsub Hlen) as Hone.
  rewrite filter_cons. destruct (decide (length c = length ps)) as [Hfull|]; [|lia].
  destruct (received_exactly_one k ch c ps Hnd Hsub Hlen Hfull Hk) as (team & -> & _).
  cbn [length]. lia.
Qed.

(** X11: with pairwise distinct names, the shares differ by at most one team:
    every participant ends with at least the quotient of [N] by [P] rounded
    down and at most that quotient rounded up. *)
Theorem shares_differ_by_at_most_one fuel lp lt st ps ts :
  heap st !! lp = Some ps ->
  heap st !! lt = Some ts ->
  1 <= length ps ->
  NoDup ps ->
  length ts <= fuel ->
  exists self st1 st2,
    post_init fuel lp lt st = Ok self st1
    /\ assign_teams self st1 = Ok tt st2
    /\ forall p, p ∈ ps ->
         exists v,
           assigned self st2 p = Some v
           /\ length ts / length ps <= length v <= (length ts + length ps - 1) / length ps.
Proof.
  intros Hp Ht HP Hnd Hfuel.
  destruct (constructed_run fuel lp lt st ps ts Hp Ht (fun _ => HP) Hfuel)
    as (self & st1 & cs & st2 & chosens & Hrun & Hcs & Hcat & Hkeys & _ & _ & _ & _ & _ & _
        & Hrun2 & _ & _ & Hchs & _ & Hfinal & _).
  exists self, st1, st2. split_and!; [done..|]. intros p Hin.
  assert (p ∈ keys (assignments self)) as Hk by (rewrite Hkeys; by apply first_seen_elem).
  destruct (dict_lookup_key _ _ Hk) as [l Hl].
  eexists. split; [rewrite (assigned_lookup _ _ _ _ Hl); by apply Hfinal|].
  pose proof (received_sum_bounds p ps chosens cs Hnd Hin Hchs) as [Hlow Hhigh].
  destruct ts as [|t ts].
  { assert (cs = []) as -> by (destruct fuel; cbn in Hcs; congruence).
    cbn in *. rewrite Nat.div_small by lia. lia. }
  set (n := length (t :: ts)) in *. assert (1 <= n) by (subst n; cbn; lia).
  assert (1 <= length ps `min` n) as Hk1 by lia.
  pose proof (chunks_count _ _ _ _ Hk1 Hcs) as Hcount.
  pose proof (chunks_full_count _ _ _ _ Hk1 Hcs) as Hfullc. fold n in Hcount, Hfullc.
  destruct (decide (length ps <= n)).
  - replace (length ps `min` n) with (length ps) in * by lia. lia.
  - replace (length ps `min` n) with n in * by lia.
    replace (n + n - 1) with (n - 1 + 1 * n) in Hcount by lia.
    replace (n + length ps - 1) with (n - 1 + 1 * length ps) by lia.
    rewrite Nat.div_add, Nat.div_small in Hcount by lia.
    rewrite Nat.div_add, !Nat.div_small by lia. lia.
Qed.

Lemma shares_differ_by_at_most_one_witness :
  exists self st1 st2,
    post_init 3 0 1 (init_state (fun n => n) ["A"; "B"] ["T1"; "T2"; "T3"]) = Ok self st1
    /\ assign_teams self st1 = Ok tt st2
    /\ forall p, p ∈ ["A"; "B"] ->
         exists v,
           assigned self st2 p = Some v
           /\ 3 / 2 <= length v <= (3 + 2 - 1) / 2.
Proof.
  apply (shares_differ_by_at_most_one 3 0 1 _ ["A"; "B"] ["T1"; "T2"; "T3"]);
    [reflexivity | reflexivity | cbn; lia | by apply (bool_decide_unpack _) | cbn; lia].
Defined.

(** X12: [assign_teams] is not idempotent.  A second call on the same object
    returns as well and appends: every list keeps what the first call gave it
    as a prefix, and all lists together then hold every team twice. *)
Theorem assign_teams_twice fuel lp lt st ps ts :
  heap st !! lp = Some ps ->
  heap st !! lt = Some ts ->
  1 <= length ps ->
  length ts <= fuel ->
  exists self st1 st2 st3 lists,
    post_init fuel lp lt st = Ok self st1
    /\ assign_teams self st1 = Ok tt st2
    /\ assign_teams self st2 = Ok tt st3
    /\ draws st3 = draws st + 2 * length ts
    /\ Forall2 (fun k v => exists first second,
                  assigned self st2 k = Some first
                  /\ v = first ++ second
                  /\ assigned self st3 k = Some v)
         (keys (assignments self)) lists
    /\ concat lists ≡ₚ ts ++ ts.
Proof.
  intros Hp Ht HP Hfuel.
  destruct (constructed_run fuel lp lt st ps ts Hp Ht (fun _ => HP) Hfuel)
    as (self & st1 & cs & st2 & chosens & Hrun & Hcs & Hcat & Hkeys & Hwf & Hp1 & Hsegs & _ & _
        & Hdraws1 & Hrun2 & _ & Hdraws2 & Hchs & Hframe & Hfinal & Hwf2).
  assert (Hlens : Forall (fun c => length c <= length ps) cs).
  { eapply Forall_impl; [by eapply chunks_length_le|]. cbn. intros; lia. }
  assert (Hout : Forall (fun l => l ∉ (assignments self).*2) (segmented_teams self)).
  { apply Forall_forall. intros l Hl Hin. by destruct (wf_apart _ _ Hwf _ Hin) as (_ & _ & ?). }
  assert (Hp2 : heap st2 !! participants self = Some ps).
  { rewrite Hframe; [done|by eapply lookup_lt_Some|].
    intros Hin. by destruct (wf_apart _ _ Hwf _ Hin). }
  assert (Hsegs2 : Forall2 (fun l c => heap st2 !! l = Some c) (segmented_teams self) cs).
  { clear -Hsegs Hout Hframe. induction Hsegs as [|l c ls cs Hl _ IH]; [constructor|].
    apply Forall_cons in Hout as [Hl' Hout]. constructor; [|by apply IH].
    rewrite Hframe; [done|by eapply lookup_lt_Some|done]. }
  destruct (assign_segments_run self ps _ cs st2 Hwf2 Hp2 Hsegs2 Hout Hlens)
    as (st3 & chosens' & Hrun3 & _ & Hdraws3 & Hchs' & _ & _ & Hrecv3 & _).
  set (first := fun k => concat (zip_with (received k) chosens cs)).
  set (second := fun k => concat (zip_with (received k) chosens' cs)).
  assert (Hndk : NoDup (keys (assignments self))) by (rewrite Hkeys; apply first_seen_NoDup).
  assert (Hsub : forall p, p ∈ ps -> p ∈ keys (assignments self)).
  { intros p. rewrite Hkeys. apply first_seen_elem. }
  exists self, st1, st2, st3, ((fun k => first k ++ second k) <$> keys (assignments self)).
  split_and!; try done.
  - rewrite Hdraws3, Hdraws2, Hcat. lia.
  - apply Forall2_fmap_r, Forall_Forall2_diag, Forall_forall. intros k Hk.
    destruct (dict_lookup_key _ _ Hk) as [l Hl]. exists (first k), (second k).
    rewrite !(assigned_lookup _ _ _ _ Hl). split_and!; [by apply Hfinal|done|].
    apply Hrecv3; [done|]. by apply Hfinal.
  - rewrite concat_fmap_app. subst first second. cbn beta.
    rewrite !(received_all_segments _ ps) by done. by rewrite Hcat.
Qed.

Lemma assign_teams_twice_witness :
  let st := init_state (fun n => n) ["A"; "B"] ["T1"; "T2"; "T3"] in
  exists self st1 st2 st3 lists,
    post_init 3 0 1 st = Ok self st1
    /\ assign_teams self st1 = Ok tt st2
    /\ assign_teams self st2 = Ok tt st3
    /\ draws st3 = draws st + 2 * 3
    /\ Forall2 (fun k v => exists first second,
                  assigned self st2 k = Some first
                  /\ v = first ++ second
                  /\ assigned self st3 k = Some v)
         (keys (assignments self)) lists
    /\ concat lists ≡ₚ ["T1"; "T2"; "T3"] ++ ["T1"; "T2"; "T3"].
Proof.
  apply (assign_teams_twice 3 0 1 _ ["A"; "B"] ["T1"; "T2"; "T3"]);
    [reflexivity | reflexivity | cbn; lia | cbn; lia].
Defined.

(** * Showing the result *)

Lemma display_teams_app v : forall out,
  display_teams v out = out ++ (String.append "  " <$> v).
Proof.
  induction v as [|team v IH]; intros out; cbn [display_teams fmap list_fmap].
  - by rewrite app_nil_r.
  - rewrite IH. unfold print. by rewrite <- (assoc_L (++)).
Qed.

Lemma assigned_Some self st k v :
  assigned self st k = Some v <->
  exists l, dict_lookup (assignments self) k = Some l /\ heap st !! l = Some v.
Proof.
  unfold assigned. destruct (dict_lookup (assignments self) k) as [l|]; cbn.
  - split; [by exists l|]. by intros (l' & [= <-] & ?).
  - split; [done|]. by intros (l' & ? & ?).
Qed.

Lemma display_participant_run self out k v st :
  assigned self st k = Some v ->
  display_participant self out k st = Ok (out ++ block k v) st.
Proof.
  intros (l & Hl & Hv)%assigned_Some. unfold display_participant, dict_get. rewrite Hl.
  rewrite bind_run. cbn [mret M_ret]. rewrite (bind_Ok _ _ _ _ _ (load_run _ _ _ Hv)).
  rewrite bind_run. cbn [mret M_ret]. rewrite (bind_Ok _ _ _ _ _ (load_run _ _ _ Hv)).
  unfold block, print. rewrite display_teams_app.
  by rewrite <- !(assoc_L (++)).
Qed.

Lemma display_loop_run self st : forall names vs out,
  Forall2 (fun p v => assigned self st p = Some v) names vs ->
  display_loop self names out st = Ok (out ++ concat (zip_with block names vs)) st.
Proof.
  intros names vs out H. revert out.
  induction H as [|p v names vs Hp _ IH]; intros out; cbn [display_loop zip_with concat].
  - by rewrite app_nil_r.
  - rewrite (bind_Ok _ _ _ _ _ (display_participant_run _ _ _ _ _ Hp)), IH.
    by rewrite <- (assoc_L (++)).
Qed.

Lemma block_lines : forall names vs,
  length names = length vs ->
  length (concat (zip_with block names vs)) = 2 * length names + length (concat vs).
Proof.
  induction names as [|p names IH]; intros [|v vs] Hlen; try done.
  cbn [zip_with concat length]. rewrite !length_app, IH by (by injection Hlen).
  unfold block. cbn [length]. rewrite length_app, length_fmap. cbn. lia.
Qed.

(** X13: on a well-formed object [display_assignments] raises nothing and
    changes nothing; it prints one block per entry of the participants list,
    in the order of the list (a repeated name gets its block once per
    occurrence): the name with the number of its teams, the teams indented by
    two spaces, and an empty line. *)
Theorem display_assignments_blocks self st ps :
  wf self st ->
  heap st !! participants self = Some ps ->
  exists vs,
    Forall2 (fun p v => assigned self st p = Some v) ps vs
    /\ display_assignments self st = Ok (concat (zip_with block ps vs)) st
    /\ length (concat (zip_with block ps vs)) = 2 * length ps + length (concat vs).
Proof.
  intros Hwf Hps.
  assert (Hall : Forall (fun p => exists v, assigned self st p = Some v) ps).
  { apply Forall_forall. intros p Hp.
    destruct (wf_assigned _ _ _ Hwf (wf_keys _ _ Hwf _ _ Hps Hp)) as (l & v & _ & _ & Hv).
    by exists v. }
  apply Forall_exists_Forall2_l in Hall as [vs Hvs].
  exists vs. split_and!; [done| |].
  - unfold display_assignments. rewrite (bind_Ok _ _ _ _ _ (load_run _ _ _ Hps)).
    by rewrite (display_loop_run _ _ _ _ _ Hvs).
  - apply block_lines. by eapply Forall2_length.
Qed.

Lemma display_assignments_blocks_witness :
  let self := mkSweepstake 0 1 [2; 4] [("A", 6); ("B", 7)] in
  let st := mkState [["A"; "B"]; ["T1"; "T2"; "T3"]; ["T1"; "T2"]; ["T3"]; ["T3"]; [];
                     ["T1"; "T3"]; ["T2"]; []; []]
              (fun n => n) 3 in
  exists vs,
    Forall2 (fun p v => assigned self st p = Some v) ["A"; "B"] vs
    /\ display_assignments self st = Ok (concat (zip_with block ["A"; "B"] vs)) st
    /\ length (concat (zip_with block ["A"; "B"] vs)) = 2 * 2 + length (concat vs).
Proof.
  apply (display_assignments_blocks (mkSweepstake 0 1 [2; 4] [("A", 6); ("B", 7)]) _
           ["A"; "B"]);
    [by apply (bool_decide_unpack _) | reflexivity].
Defined.

Lemma display_loop_missing_key self st p : forall names out,
  (forall l, l ∈ (assignments self).*2 -> is_Some (heap st !! l)) ->
  p ∈ names -> p ∉ keys (assignments self) ->
  display_loop self names out st = Raise KeyError.
Proof.
  induction names as [|q names IH]; intros out Halive Hin Hkey; [by apply elem_of_nil in Hin|].
  cbn [display_loop]. rewrite bind_run.
  destruct (dict_lookup (assignments self) q) as [l|] eqn:Hq.
  - destruct (Halive l (dict_lookup_value _ _ _ Hq)) as [v Hv].
    assert (assigned self st q = Some v) as Ha by (apply assigned_Some; by exists l).
    rewrite (display_participant_run _ _ _ _ _ Ha).
    apply IH; [done| |done]. apply elem_of_cons in Hin as [->|]; [|done].
    exfalso. apply Hkey. by eapply dict_lookup_is_key.
  - unfold display_participant, dict_get. by rewrite Hq.
Qed.

(** X14: when the participants list holds a name that is not a key of the
    dictionary (the list is the caller's own and can have grown since
    construction), [display_assignments] raises [KeyError]. *)
Theorem display_assignments_missing_key self st ps p :
  heap st !! participants self = Some ps ->
  (forall l, l ∈ (assignments self).*2 -> is_Some (heap st !! l)) ->
  p ∈ ps ->
  p ∉ keys (assignments self) ->
  display_assignments self st = Raise KeyError.
Proof.
  intros Hps Halive Hin Hkey. unfold display_assignments.
  rewrite (bind_Ok _ _ _ _ _ (load_run _ _ _ Hps)). by eapply display_loop_missing_key.
Qed.

Lemma display_assignments_missing_key_witness :
  let self := mkSweepstake 0 1 [2] [("A", 3); ("B", 4)] in
  let st := mkState [["A"; "B"; "Z"]; ["T1"; "T2"]; ["T1"; "T2"]; ["T1"]; ["T2"]]
              (fun n => n) 2 in
  display_assignments self st = Raise KeyError.
Proof.
  apply (display_assignments_missing_key (mkSweepstake 0 1 [2] [("A", 3); ("B", 4)]) _
           ["A"; "B"; "Z"] "Z"); [reflexivity | | |].
  - apply (proj1 (Forall_forall _ _)). by apply (bool_decide_unpack _).
  - by apply (bool_decide_unpack _).
  - by apply (bool_decide_unpack _).
Defined.

Lemma first_seen_id ps : NoDup ps -> first_seen ps = ps.
Proof.
  induction ps as [|p ps IH]; [done|]. intros [Hp Hnd]%NoDup_cons.
  cbn. rewrite IH by done. f_equal. apply filter_all. by intros x Hx ->.
Qed.

(** Construction, [assign_teams] and [display_assignments] in a row. *)
Lemma run_display fuel lp lt st ps ts :
  heap st !! lp = Some ps ->
  heap st !! lt = Some ts ->
  1 <= length ps ->
  length ts <= fuel ->
  exists self st1 st2 vs,
    post_init fuel lp lt st = Ok self st1
    /\ assign_teams self st1 = Ok tt st2
    /\ draws st2 = draws st + length ts
    /\ Forall2 (fun p v => assigned self st2 p = Some v) ps vs
    /\ display_assignments self st2 = Ok (concat (zip_with block ps vs)) st2
    /\ Forall (fun v => v `sublist_of` ts) vs
    /\ (NoDup ps -> concat vs ≡ₚ ts).
Proof.
  intros Hp Ht HP Hfuel.
  destruct (constructed_run fuel lp lt st ps ts Hp Ht (fun _ => HP) Hfuel)
    as (self & st1 & cs & st2 & chosens & Hrun & _ & Hcat & Hkeys & Hwf & Hp1 & _ & _ & _ & _
        & Hrun2 & _ & Hdraws2 & Hchs & Hframe & Hfinal & Hwf2).
  set (final := fun k => concat (zip_with (received k) chosens cs)).
  assert (Hp2 : heap st2 !! participants self = Some ps).
  { rewrite Hframe; [done|by eapply lookup_lt_Some|].
    intros Hin. by destruct (wf_apart _ _ Hwf _ Hin). }
  assert (Hvs : Forall2 (fun p v => assigned self st2 p = Some v) ps (final <$> ps)).
  { apply Forall2_fmap_r, Forall_Forall2_diag, Forall_forall. intros p Hin.
    assert (p ∈ keys (assignments self)) as Hk by (rewrite Hkeys; by apply first_seen_elem).
    destruct (dict_lookup_key _ _ Hk) as [l Hl].
    rewrite (assigned_lookup _ _ _ _ Hl). by apply Hfinal. }
  exists self, st1, st2, (final <$> ps). split_and!; try done.
  - unfold display_assignments. rewrite (bind_Ok _ _ _ _ _ (load_run _ _ _ Hp2)).
    by rewrite (display_loop_run _ _ _ _ _ Hvs).
  - apply Forall_fmap, Forall_forall. intros p _. cbn.
    rewrite <- Hcat. apply sublist_concat. by eapply received_blocks.
  - intros Hnd. rewrite <- Hcat. by apply (received_all_segments _ ps).
Qed.

(** X15: with pairwise distinct names, what is printed after a run is one
    block per participant, in the order of the participants list, whose team
    lines are, all together, the teams, each once; [2 P + N] lines in all. *)
Theorem display_after_run fuel lp lt st ps ts :
  heap st !! lp = Some ps ->
  heap st !! lt = Some ts ->
  1 <= length ps ->
  NoDup ps ->
  length ts <= fuel ->
  exists self st1 st2 vs out,
    post_init fuel lp lt st = Ok self st1
    /\ assign_teams self st1 = Ok tt st2
    /\ display_assignments self st2 = Ok out st2
    /\ out = concat (zip_with block ps vs)
    /\ length vs = length ps
    /\ concat vs ≡ₚ ts
    /\ length out = 2 * length ps + length ts.
Proof.
  intros Hp Ht HP Hnd Hfuel.
  destruct (run_display fuel lp lt st ps ts Hp Ht HP Hfuel)
    as (self & st1 & st2 & vs & Hrun & Hrun2 & _ & Hvs & Hdisp & _ & Hperm).
  specialize (Hperm Hnd). pose proof (Forall2_length _ _ _ Hvs) as Hlen.
  exists self, st1, st2, vs, (concat (zip_with block ps vs)).
  split_and!; try done.
  by rewrite block_lines, Hperm.
Qed.

Lemma display_after_run_witness :
  exists self st1 st2 vs out,
    post_init 3 0 1 (init_state (fun n => n) ["A"; "B"] ["T1"; "T2"; "T3"]) = Ok self st1
    /\ assign_teams self st1 = Ok tt st2
    /\ display_assignments self st2 = Ok out st2
    /\ out = concat (zip_with block ["A"; "B"] vs)
    /\ length vs = 2
    /\ concat vs ≡ₚ ["T1"; "T2"; "T3"]
    /\ length out = 2 * 2 + 3.
Proof.
  apply (display_after_run 3 0 1 _ ["A"; "B"] ["T1"; "T2"; "T3"]);
    [reflexivity | reflexivity | cbn; lia | by apply (bool_decide_unpack _) | cbn; lia].
Defined.

(** X16: the [__main__] block never stops short: whatever the two files
    hold, [read_file] gives at least one participant (an empty file gives the
    one name [""]), so construction returns, every team is drawn once, no
    exception is raised, and one block per line of the participants file is
    printed, each holding teams of the teams file in ranking order. *)
Theorem main_returns fuel fs st :
  newlines (fs "world_cup_2022.txt") < fuel ->
  exists out st' vs,
    main fuel fs st = Ok out st'
    /\ draws st' = draws st + S (newlines (fs "world_cup_2022.txt"))
    /\ length vs = S (newlines (fs "people.txt"))
    /\ out = concat (zip_with block (split_lines (fs "people.txt")) vs)
    /\ Forall (fun v => v `sublist_of` split_lines (fs "world_cup_2022.txt")) vs
    /\ (NoDup (split_lines (fs "people.txt")) ->
        concat vs ≡ₚ split_lines (fs "world_cup_2022.txt")).
Proof.
  intros Hfuel. unfold main, read_file.
  set (ps := split_lines (fs "people.txt")).
  set (ts := split_lines (fs "world_cup_2022.txt")).
  rewrite bind_run. unfold alloc at 1. rewrite bind_run. unfold alloc at 1.
  cbn [heap tape draws].
  set (lp := length (heap st)). set (lt := length (heap st ++ [ps])).
  set (st0 := mkState _ _ _).
  assert (Hp : heap st0 !! lp = Some ps).
  { subst st0. cbn [heap]. rewrite <- (assoc_L (++)). apply lookup_alloc_new. }
  assert (Ht : heap st0 !! lt = Some ts) by apply lookup_alloc_new.
  destruct (run_display fuel lp lt st0 ps ts Hp Ht)
    as (self & st1 & st2 & vs & Hrun & Hrun2 & Hdraws & Hvs & Hdisp & Hsub & Hperm).
  { subst ps. rewrite split_lines_length. lia. }
  { subst ts. rewrite split_lines_length. lia. }
  exists (concat (zip_with block ps vs)), st2, vs.
  rewrite (bind_Ok _ _ _ _ _ Hrun), (bind_Ok _ _ _ _ _ Hrun2), Hdisp.
  split_and!; try done.
  - rewrite Hdraws. subst ts st0. by rewrite split_lines_length.
  - rewrite <- (Forall2_length _ _ _ Hvs). subst ps. apply split_lines_length.
Qed.

Lemma main_returns_witness :
  let fs := fun name : string =>
    if decide (name = "people.txt") then "A" +:+ String newline "B"
    else "T1" +:+ String newline ("T2" +:+ String newline "T3") in
  let st := mkState [] (fun n => n) 0 in
  exists out st' vs,
    main 3 fs st = Ok out st'
    /\ draws st' = draws st + S (newlines (fs "world_cup_2022.txt"))
    /\ length vs = S (newlines (fs "people.txt"))
    /\ out = concat (zip_with block (split_lines (fs "people.txt")) vs)
    /\ Forall (fun v => v `sublist_of` split_lines (fs "world_cup_2022.txt")) vs
    /\ (NoDup (split_lines (fs "people.txt")) ->
        concat vs ≡ₚ split_lines (fs "world_cup_2022.txt")).
Proof.
  apply (main_returns 3
           (fun name : string =>
              if decide (name = "people.txt") then "A" +:+ String newline "B"
              else "T1" +:+ String newline ("T2" +:+ String newline "T3"))
           (mkState [] (fun n => n) 0)).
  vm_compute. lia.
Defined.

(** The [__main__] block on two small files. *)
Example run_main :
  let fs := fun name : string =>
    if decide (name = "people.txt") then "A" +:+ String newline "B"
    else "T1" +:+ String newline ("T2" +:+ String newline "T3") in
  match main 3 fs (mkState [] (fun n => n) 0) with
  | Ok out st =>
      out = ["A (2):"; "  T1"; "  T3"; ""; "B (1):"; "  T2"; ""] /\ draws st = 3
  | _ => False
  end.
Proof. vm_compute. done. Qed.

(** Files that end with a newline give a participant and a team with the
    empty name; both take part. *)
Example run_main_trailing_newlines :
  let fs := fun name : string =>
    if decide (name = "people.txt") then "A" +:+ String newline EmptyString
    else "T1" +:+ String newline EmptyString in
  match main 2 fs (mkState [] (fun _ => 1) 0) with
  | Ok out st => out = ["A (1):"; "  "; ""; " (1):"; "  T1"; ""]
  | _ => False
  end.
Proof. vm_compute. done. Qed.
